(** * just-cache-it: a shallow embedding of [src/index.ts]

    The development models the two classes of the library, [CacheValue]
    (a slot holding a current and a previous value, with its own
    subscribers and an optional expiry timer) and [CacheIt] (a map from
    string keys to slots, with cache-wide subscribers), as state
    transformers over an explicit JavaScript world: an object heap, a store
    of [CacheValue] instances, the pending [setTimeout] callbacks, the
    [Symbol()] counter and a log of every callback invocation.

    Each method is a computation in the monad [JS], written statement by
    statement after its TypeScript body.  What lies outside [index.ts] is
    modelled as follows.
    - Cached values are primitives or references into the heap, so that
      two references to one object alias.  A number is an integer (the two
      zeros are one) or [NaN]; a function is an object of the heap that has
      a [[Call]] method; the properties of an object hold plain data,
      primitives and nested records, never a function.
    - Caller-supplied callbacks are known by an identifier and by whether
      they return or throw; every call is logged.  A callback does not call
      back into the library.
    - Time is not modelled: a [setTimeout] callback is pending until the
      scheduler step [fire] runs it, once. *)

From stdpp Require Import gmap strings list fin_maps.
From Stdlib Require Import ZArith.

Set Warnings "-register-all".

Local Open Scope Z_scope.
Local Open Scope nat_scope.

(** ** JavaScript values *)

(** Heap addresses of objects: records, arrays and functions. *)
Definition loc := nat.
(** Addresses of [CacheValue] instances. *)
Definition ref := nat.
(** [Symbol()] values; each call yields a new one. *)
Definition symbol := nat.

Inductive prim :=
| PUndefined
| PNull
| PBool (b : bool)
| PNum (n : Z)
| PNaN
| PBigInt (n : Z)
| PStr (s : string)
| PSymbol (s : symbol).

(** A value of the cached type [T]: a primitive, or a reference to an
    object (record, array or function) living in the heap. *)
Inductive jsval :=
| Prim (p : prim)
| Ref (l : loc).

Notation "'undefined'" := (Prim PUndefined).

(** The contents of a heap object: its own properties, each a primitive or
    a nested object owned by this one (the object graph under a reference
    is a tree; arrays are objects whose keys are indices). *)
Inductive tree :=
| Leaf (p : prim)
| Node (props : list (string * tree)).

Definition object := list (string * tree).

#[global] Instance prim_eq_dec : EqDecision prim.
Proof. solve_decision. Defined.

#[global] Instance jsval_eq_dec : EqDecision jsval.
Proof. solve_decision. Defined.

(** [v != null] (loose inequality: false for [null] and [undefined]). *)
Definition neq_null (v : jsval) : bool :=
  match v with
  | Prim PUndefined | Prim PNull => false
  | _ => true
  end.

(** JavaScript truthiness, the test performed by [if (v)]. *)
Definition truthy (v : jsval) : bool :=
  match v with
  | Prim PUndefined | Prim PNull => false
  | Prim (PBool b) => b
  | Prim (PNum n) => negb (Z.eqb n 0)
  | Prim PNaN => false
  | Prim (PBigInt n) => negb (Z.eqb n 0)
  | Prim (PStr s) => negb (String.eqb s "")
  | Prim (PSymbol _) => true
  | Ref _ => true
  end.

(** ** Callbacks and the invocation log *)

(** A caller-supplied function.  What the library can observe of it is that
    it is called and whether the call returns or throws; [cb_id] tells the
    functions apart in the log. *)
Record callback := Callback { cb_id : nat; cb_throws : bool }.

Record UnwrapHandlers := {
  onPresent : option callback;
  onAbsent : option callback
}.

Record CacheValueSubscriptionHandlers := {
  next : option callback;
  complete : option callback
}.

(** [type CacheSubscriptionHandler = () => void] *)
Notation "'CacheSubscriptionHandler'" := callback (only parsing).

(** A logged call: [handler()] of the cache subscription [sym];
    [handlers.next(this)] and [handlers.complete()] of the slot subscription
    [sym]; [handlers.onPresent(v)] and [handlers.onAbsent()] of an unwrap. *)
Inductive event :=
| CacheChanged (sym : symbol) (cb : nat)
| Next (sym : symbol) (cb : nat) (slot : ref)
| Complete (sym : symbol) (cb : nat)
| Present (cb : nat) (v : jsval)
| Absent (cb : nat).

#[global] Instance event_eq_dec : EqDecision event.
Proof. solve_decision. Defined.

(** ** Object state *)

Record CacheValueDescriptor := {
  current : jsval;
  previous : jsval
}.

(** The fields of a [CacheValue] instance.  [subscribers] is a JavaScript
    [Map], kept as an association list in insertion order. *)
Record CacheValue := {
  value : CacheValueDescriptor;
  subscribers : list (symbol * CacheValueSubscriptionHandlers)
}.

(** The fields of the [CacheIt] instance ([cache_subscribers] is its
    [subscribers] field). *)
Record CacheIt := {
  cache : gmap string ref;
  cache_subscribers : list (symbol * CacheSubscriptionHandler)
}.

(** A pending [setTimeout(() => this.update(undefined), ttl)]. *)
Record timer := { timer_this : ref; timer_delay : Z }.

Record World := {
  heap : list object;
  slots : list CacheValue;
  cacheit : CacheIt;
  timers : list timer;
  symbols : nat;
  trace : list event
}.

Definition empty_cache : CacheIt := {| cache := ∅; cache_subscribers := [] |}.

Definition initial : World :=
  {| heap := []; slots := []; cacheit := empty_cache; timers := [];
     symbols := 0; trace := [] |}.

Definition set_heap (h : list object) (w : World) : World :=
  {| heap := h; slots := slots w; cacheit := cacheit w; timers := timers w;
     symbols := symbols w; trace := trace w |}.

Definition set_slots (s : list CacheValue) (w : World) : World :=
  {| heap := heap w; slots := s; cacheit := cacheit w; timers := timers w;
     symbols := symbols w; trace := trace w |}.

Definition set_cacheit (c : CacheIt) (w : World) : World :=
  {| heap := heap w; slots := slots w; cacheit := c; timers := timers w;
     symbols := symbols w; trace := trace w |}.

Definition set_timers (t : list timer) (w : World) : World :=
  {| heap := heap w; slots := slots w; cacheit := cacheit w; timers := t;
     symbols := symbols w; trace := trace w |}.

Definition set_symbols (n : nat) (w : World) : World :=
  {| heap := heap w; slots := slots w; cacheit := cacheit w; timers := timers w;
     symbols := n; trace := trace w |}.

Definition set_trace (t : list event) (w : World) : World :=
  {| heap := heap w; slots := slots w; cacheit := cacheit w; timers := timers w;
     symbols := symbols w; trace := t |}.

(** ** The monad of JavaScript computations *)

Inductive exn :=
| HandlerError (cb : nat)
| TypeError.

Inductive completion (A : Type) :=
| Normal (a : A)
| Thrown (e : exn).
Arguments Normal {A} a.
Arguments Thrown {A} e.

(** A computation runs in a world and ends normally or by throwing; the
    effects it had before throwing stay. *)
Definition JS (A : Type) : Type := World → completion A * World.

#[global] Instance JS_ret : MRet JS := λ A a w, (Normal a, w).

#[global] Instance JS_bind : MBind JS := λ A B f m w,
  match m w with
  | (Normal a, w') => f a w'
  | (Thrown e, w') => (Thrown e, w')
  end.

Definition throw {A} (e : exn) : JS A := λ w, (Thrown e, w).
Definition gets {A} (f : World → A) : JS A := λ w, (Normal (f w), w).
Definition modify (f : World → World) : JS unit := λ w, (Normal (), f w).

(** The world a computation leaves behind. *)
Definition exec {A} (m : JS A) (w : World) : World := (m w).2.
(** How it ended. *)
Definition result {A} (m : JS A) (w : World) : completion A := (m w).1.

Definition emit (e : event) : JS unit :=
  modify (λ w, set_trace (trace w ++ [e]) w).

(** Calling a callback: the call is logged, then the callback returns or
    throws. *)
Definition invoke (cb : callback) (e : event) : JS unit :=
  emit e;;
  if cb_throws cb then throw (HandlerError (cb_id cb)) else mret ().

(** [f?.(...)] *)
Definition call_opt (f : option callback) (ev : nat → event) : JS unit :=
  match f with
  | Some cb => invoke cb (ev (cb_id cb))
  | None => mret ()
  end.

(** [Map.prototype.forEach] over the entries in insertion order. *)
Fixpoint forEach {H} (entries : list (symbol * H)) (f : symbol → H → JS unit)
  : JS unit :=
  match entries with
  | [] => mret ()
  | (sym, h) :: rest => f sym h;; forEach rest f
  end.

(** [Map.prototype.set] *)
Fixpoint Map_set {H} (k : symbol) (h : H) (m : list (symbol * H))
  : list (symbol * H) :=
  match m with
  | [] => [(k, h)]
  | (k', h') :: rest =>
      if decide (k' = k) then (k, h) :: rest else (k', h') :: Map_set k h rest
  end.

(** [Map.prototype.delete] *)
Definition Map_delete {H} (k : symbol) (m : list (symbol * H))
  : list (symbol * H) :=
  filter (λ e, e.1 ≠ k) m.

(** [Symbol()] *)
Definition Symbol : JS symbol :=
  n ← gets symbols;
  modify (set_symbols (S n));;
  mret n.

(** ** The heap and [cloneDeep] *)

(** The contents of the object at [l]. *)
Definition deref (h : list object) (l : loc) : object := default [] (h !! l).

(** A function is an object with the internal method [[Call]]; the heap
    keeps that method among the properties, under its bracketed name. *)
Definition callable (o : object) : bool :=
  existsb (λ p, String.eqb p.1 "[[Call]]") o.

(** [typeof v]: for a reference it depends on the object referred to. *)
Definition typeof (h : list object) (v : jsval) : string :=
  match v with
  | Prim PUndefined => "undefined"
  | Prim PNull => "object"
  | Prim (PBool _) => "boolean"
  | Prim (PNum _) | Prim PNaN => "number"
  | Prim (PBigInt _) => "bigint"
  | Prim (PStr _) => "string"
  | Prim (PSymbol _) => "symbol"
  | Ref l => if callable (deref h l) then "function" else "object"
  end.

(** Modelled from the spec: [cloneDeep] is imported from lodash and is not
    part of the sources; the spec asks of it a deep copy of a composite
    value.  For an object it yields a new object with equal contents, at an
    address nothing else refers to. *)
Definition cloneDeep (v : jsval) : JS jsval :=
  match v with
  | Ref l =>
      h ← gets heap;
      modify (set_heap (h ++ [deref h l]));;
      mret (Ref (length h))
  | Prim p => mret (Prim p)
  end.

(** [typeof v === 'object' && v != null ? cloneDeep(v) : v], the expression
    [update] applies to the old and to the new value (lines 107-113). *)
Definition isolate (v : jsval) : JS jsval :=
  h ← gets heap;
  if String.eqb (typeof h v) "object" && neq_null v then cloneDeep v else mret v.

(** What a caller sees when it inspects a value: the primitive, or the
    contents of the object referred to. *)
Definition observe (h : list object) (v : jsval) : tree :=
  match v with
  | Prim p => Leaf p
  | Ref l => Node (deref h l)
  end.

(** ** CacheValue *)

(** Reading and writing the fields of the instance [this].  A method called
    on an address that holds no instance throws, as a call on [undefined]
    does. *)
Definition this_slot (this : ref) : JS CacheValue :=
  s ← gets slots;
  match s !! this with
  | Some cv => mret cv
  | None => throw TypeError
  end.

Definition write_slot (this : ref) (f : CacheValue → CacheValue) : JS unit :=
  modify (λ w, set_slots (alter f this (slots w)) w).

Definition set_current (v : jsval) (cv : CacheValue) : CacheValue :=
  {| value := {| current := v; previous := previous (value cv) |};
     subscribers := subscribers cv |}.

Definition set_previous (v : jsval) (cv : CacheValue) : CacheValue :=
  {| value := {| current := current (value cv); previous := v |};
     subscribers := subscribers cv |}.

Definition set_subscribers (m : list (symbol * CacheValueSubscriptionHandlers))
  (cv : CacheValue) : CacheValue :=
  {| value := value cv; subscribers := m |}.

(** [setTimeout(() => { this.update(undefined) }, ttl)] (lines 96-98): the
    callback becomes pending.  Nothing in the library calls
    [clearTimeout]. *)
Definition setTimeout (this : ref) (ttl : Z) : JS unit :=
  modify (λ w, set_timers (timers w ++ [{| timer_this := this; timer_delay := ttl |}]) w).

(** [private notifySubscribers(isComplete?: boolean)] (lines 202-210) *)
Definition CacheValue_notifySubscribers (this : ref) (isComplete : option bool)
  : JS unit :=
  cv ← this_slot this;
  forEach (subscribers cv) (λ sym handlers,
    if default false isComplete
    then call_opt (complete handlers) (Complete sym)
    else call_opt (next handlers) (λ cb, Next sym cb this)).

(** [constructor(ttl?: number)] (lines 83-100): the fields start out
    [undefined] and empty; the timer is set if [ttl != null]. *)
Definition CacheValue_constructor (ttl : option Z) : JS ref :=
  s ← gets slots;
  modify (set_slots (s ++ [{| value := {| current := undefined; previous := undefined |};
                              subscribers := [] |}]));;
  let this := length s in
  match ttl with
  | Some t => setTimeout this t
  | None => mret ()
  end;;
  mret this.

(** [update(value: Maybe<T>): void] (lines 106-119) *)
Definition CacheValue_update (this : ref) (v : jsval) : JS unit :=
  cv ← this_slot this;
  oldValue ← isolate (current (value cv));
  newValue ← isolate v;
  write_slot this (set_previous oldValue);;
  write_slot this (set_current newValue);;
  CacheValue_notifySubscribers this None.

(** [unwrapCurrent(handlers?: UnwrapHandlers<T>): Maybe<T> | void]
    (lines 132-142); [if (this.value.current)] is a truthiness test. *)
Definition CacheValue_unwrapCurrent (this : ref) (handlers : option UnwrapHandlers)
  : JS jsval :=
  cv ← this_slot this;
  match handlers with
  | Some h =>
      (if truthy (current (value cv))
       then call_opt (onPresent h) (λ cb, Present cb (current (value cv)))
       else call_opt (onAbsent h) Absent);;
      mret undefined
  | None => mret (current (value cv))
  end.

(** [unwrapPrevious(handlers?: UnwrapHandlers<T>): Maybe<T> | void]
    (lines 155-165) *)
Definition CacheValue_unwrapPrevious (this : ref) (handlers : option UnwrapHandlers)
  : JS jsval :=
  cv ← this_slot this;
  match handlers with
  | Some h =>
      (if truthy (previous (value cv))
       then call_opt (onPresent h) (λ cb, Present cb (previous (value cv)))
       else call_opt (onAbsent h) Absent);;
      mret undefined
  | None => mret (previous (value cv))
  end.

(** [clear(): void] (lines 170-175) *)
Definition CacheValue_clear (this : ref) : JS unit :=
  _ ← this_slot this;
  write_slot this (set_current undefined);;
  write_slot this (set_previous undefined);;
  CacheValue_notifySubscribers this None.

(** The object returned by [subscribe]: its [unsubscribe] closure captures
    [this], [symbol] and [handlers]. *)
Record CacheValueSubscription := {
  sub_this : ref;
  sub_symbol : symbol;
  sub_handlers : CacheValueSubscriptionHandlers
}.

(** [subscribe(handlers): CacheValueSubscription] (lines 182-192) *)
Definition CacheValue_subscribe (this : ref) (handlers : CacheValueSubscriptionHandlers)
  : JS CacheValueSubscription :=
  _ ← this_slot this;
  sym ← Symbol;
  write_slot this (λ cv, set_subscribers (Map_set sym handlers (subscribers cv)) cv);;
  mret {| sub_this := this; sub_symbol := sym; sub_handlers := handlers |}.

(** [unsubscribe: () => { handlers?.complete?.(); this.subscribers.delete(symbol) }]
    (lines 187-190) *)
Definition CacheValueSubscription_unsubscribe (sub : CacheValueSubscription)
  : JS unit :=
  call_opt (complete (sub_handlers sub)) (Complete (sub_symbol sub));;
  write_slot (sub_this sub)
    (λ cv, set_subscribers (Map_delete (sub_symbol sub) (subscribers cv)) cv).

(** [unsubscribeAll(): void] (lines 197-200) *)
Definition CacheValue_unsubscribeAll (this : ref) : JS unit :=
  CacheValue_notifySubscribers this (Some true);;
  write_slot this (set_subscribers []).

(** ** CacheIt *)

Definition set_cache (m : gmap string ref) (c : CacheIt) : CacheIt :=
  {| cache := m; cache_subscribers := cache_subscribers c |}.

Definition set_cache_subscribers (m : list (symbol * CacheSubscriptionHandler))
  (c : CacheIt) : CacheIt :=
  {| cache := cache c; cache_subscribers := m |}.

Definition modify_cacheit (f : CacheIt → CacheIt) : JS unit :=
  modify (λ w, set_cacheit (f (cacheit w)) w).

(** [private notifySubscribers(): void] (lines 341-343) *)
Definition CacheIt_notifySubscribers : JS unit :=
  c ← gets cacheit;
  forEach (cache_subscribers c) (λ sym handler,
    invoke handler (CacheChanged sym (cb_id handler))).

(** [set(key: string, value: T, ttl?: number): CacheValue<T>]
    (lines 247-256) *)
Definition CacheIt_set (key : string) (v : jsval) (ttl : option Z) : JS ref :=
  cacheValue ← CacheValue_constructor ttl;
  CacheValue_update cacheValue v;;
  modify_cacheit (λ c, set_cache (<[key := cacheValue]> (cache c)) c);;
  CacheIt_notifySubscribers;;
  mret cacheValue.

(** [get(key: string): CacheValue<T> | undefined] (lines 263-271) *)
Definition CacheIt_get (key : string) : JS (option ref) :=
  c ← gets cacheit;
  match cache c !! key with
  | None => mret None
  | Some cacheValue => mret (Some cacheValue)
  end.

(** [delete(key: string): boolean] (lines 278-286) *)
Definition CacheIt_delete (key : string) : JS bool :=
  c ← gets cacheit;
  let isDeleted := bool_decide (is_Some (cache c !! key)) in
  modify_cacheit (λ c, set_cache (delete key (cache c)) c);;
  (if isDeleted then CacheIt_notifySubscribers else mret ());;
  mret isDeleted.

(** [clear(): void] (lines 291-294) *)
Definition CacheIt_clear : JS unit :=
  modify_cacheit (set_cache ∅);;
  CacheIt_notifySubscribers.

(** [size(): number] (lines 299-301) *)
Definition CacheIt_size : JS nat :=
  c ← gets cacheit;
  mret (size (cache c)).

(** [has(key: string): boolean] (lines 308-316) *)
Definition CacheIt_has (key : string) : JS bool :=
  c ← gets cacheit;
  match cache c !! key with
  | None => mret false
  | Some _ => mret true
  end.

(** The object returned by [CacheIt.subscribe]; its closure captures
    [symbol]. *)
Record CacheSubscription := { csub_symbol : symbol }.

(** [subscribe(handler): CacheSubscription] (lines 323-332) *)
Definition CacheIt_subscribe (handler : CacheSubscriptionHandler)
  : JS CacheSubscription :=
  sym ← Symbol;
  modify_cacheit (λ c, set_cache_subscribers (Map_set sym handler (cache_subscribers c)) c);;
  mret {| csub_symbol := sym |}.

(** [unsubscribe: () => { this.subscribers.delete(symbol) }] (lines 328-330) *)
Definition CacheSubscription_unsubscribe (sub : CacheSubscription) : JS unit :=
  modify_cacheit (λ c, set_cache_subscribers (Map_delete (csub_symbol sub) (cache_subscribers c)) c).

(** [unsubscribeAll(): void] (lines 337-339) *)
Definition CacheIt_unsubscribeAll : JS unit :=
  modify_cacheit (set_cache_subscribers []).

(** ** CacheItUtils *)

(** [new Error(message)] *)
Inductive Error := MkError (message : string).

(** [type CacheKeyGenerator = { generateKey: (...additional: string[]) => string }].
    Modelled from the spec: [uuidv4] is imported from the uuid package and
    is not part of the sources; the identifier a call of it returns is the
    last argument of every function that calls it. *)
Record CacheKeyGenerator := {
  generateKey : list string → string → string
}.

(** [private static generateKeyWithBase(baseKey?: string, ...additional: string[]): string]
    (lines 388-395); [String.concat] is [Array.prototype.join]. *)
Definition CacheItUtils_generateKeyWithBase (baseKey : option string)
    (additional : list string) (uuid : string) : string :=
  let baseKeyPart :=
    match baseKey with
    | Some b => b +:+ "_"
    | None => ""
    end in
  let additionalPart :=
    if 0 <? length additional then String.concat "-" additional +:+ "_" else "" in
  "$CACHE-IT_" +:+ baseKeyPart +:+ additionalPart +:+ uuid.

(** [static addBaseKey(baseKey: string): CacheKeyGenerator] (lines 370-378);
    [!baseKey] holds of the empty string. *)
Definition CacheItUtils_addBaseKey (baseKey : string) : Error + CacheKeyGenerator :=
  if String.eqb baseKey "" then inl (MkError "Base key cannot be empty")
  else inr {| generateKey := λ additional uuid,
                CacheItUtils_generateKeyWithBase (Some baseKey) additional uuid |}.

(** [static generateKey(...additional: string[]): string] (lines 384-386) *)
Definition CacheItUtils_generateKey (additional : list string) (uuid : string)
  : string :=
  CacheItUtils_generateKeyWithBase None additional uuid.

(** ** The host: expiry timers and callers *)

(** Modelled from the spec: the scheduling primitive runs a callback once.
    The scheduler runs the [i]-th pending timer callback: the timer is
    spent, and its body [this.update(undefined)] runs. *)
Definition fire (i : nat) : JS unit :=
  ts ← gets timers;
  match ts !! i with
  | Some t =>
      modify (set_timers (delete i ts));;
      CacheValue_update (timer_this t) undefined
  | None => mret ()
  end.

(** A caller assigns to the properties of an object it holds a reference
    to, leaving the object with the contents [o]. *)
Definition write_object (l : loc) (o : object) : JS unit :=
  modify (λ w, set_heap (<[l := o]> (heap w)) w).

(** * Vocabulary for stating properties *)

(** ** Notification passes *)

Section Pass.
Context {H : Type} (sel : H → option callback) (ev : symbol → nat → event).

(** The calls a [forEach] pass makes: entries without the callback are
    skipped, and the pass ends at the first callback that throws. *)
Fixpoint pass_events (entries : list (symbol * H)) : list event :=
  match entries with
  | [] => []
  | (sym, h) :: rest =>
      match sel h with
      | None => pass_events rest
      | Some cb =>
          ev sym (cb_id cb) :: (if cb_throws cb then [] else pass_events rest)
      end
  end.

(** How the pass ends. *)
Fixpoint pass_outcome (entries : list (symbol * H)) : completion unit :=
  match entries with
  | [] => Normal ()
  | (sym, h) :: rest =>
      match sel h with
      | None => pass_outcome rest
      | Some cb =>
          if cb_throws cb then Thrown (HandlerError (cb_id cb))
          else pass_outcome rest
      end
  end.
End Pass.

(** A single optional call [f?.()]. *)
Definition call_events (f : option callback) (ev : nat → event) : list event :=
  match f with
  | Some cb => [ev (cb_id cb)]
  | None => []
  end.

Definition call_outcome (f : option callback) : completion unit :=
  match f with
  | Some cb => if cb_throws cb then Thrown (HandlerError (cb_id cb)) else Normal ()
  | None => Normal ()
  end.

Definition returning {A} (c : completion unit) (a : A) : completion A :=
  match c with
  | Normal _ => Normal a
  | Thrown e => Thrown e
  end.

(** ** Values and the heap *)

(** The value [isolate v] returns in heap [h], and the heap it leaves: a
    plain object is copied, a function and a primitive are kept. *)
Definition isolated (h : list object) (v : jsval) : jsval :=
  match v with
  | Ref l => if callable (deref h l) then Ref l else Ref (length h)
  | Prim p => Prim p
  end.

Definition isolated_heap (h : list object) (v : jsval) : list object :=
  match v with
  | Ref l => if callable (deref h l) then h else h ++ [deref h l]
  | Prim _ => h
  end.

(** [typeof v === 'function'] *)
Definition is_function (h : list object) (v : jsval) : bool :=
  String.eqb (typeof h v) "function".

(** A value a caller can hold in heap [h]: references point to objects
    that exist. *)
Definition allocated (h : list object) (v : jsval) : Prop :=
  match v with
  | Ref l => l < length h
  | Prim _ => True
  end.

(** ** Slots and timers *)

(** A slot as the constructor leaves it. *)
Definition empty_slot : CacheValue :=
  {| value := {| current := undefined; previous := undefined |};
     subscribers := [] |}.

(** The timers the constructor sets for [this]. *)
Definition armed (this : ref) (ttl : option Z) : list timer :=
  match ttl with
  | Some t => [{| timer_this := this; timer_delay := t |}]
  | None => []
  end.

(** The call an unwrap method makes on a handler pair for the value [v]. *)
Definition unwrap_call (h : UnwrapHandlers) (v : jsval) : option callback :=
  if truthy v then onPresent h else onAbsent h.

(** How that call is logged. *)
Definition unwrap_event (v : jsval) (cb : nat) : event :=
  if truthy v then Present cb v else Absent cb.

(** What an unwrap method does when the field it reads holds [v]. *)
Definition unwrapped (v : jsval) (handlers : option UnwrapHandlers) (w : World)
  : completion jsval * World :=
  match handlers with
  | Some h =>
      (returning (call_outcome (unwrap_call h v)) undefined,
       set_trace (trace w ++ call_events (unwrap_call h v) (unwrap_event v)) w)
  | None => (Normal v, w)
  end.

(** ** Reading a slot *)

(** The calls an unwrap method may make. *)
Definition unwrap_callback (e : event) : bool :=
  match e with
  | Present _ _ | Absent _ => true
  | _ => false
  end.

(** The world after a read: everything is as before, except that the log
    may have gained the one call made on the handler pair. *)
Definition only_read (handlers : option UnwrapHandlers) (w w' : World) : Prop :=
  slots w' = slots w ∧ heap w' = heap w ∧ cacheit w' = cacheit w ∧
  timers w' = timers w ∧ symbols w' = symbols w ∧
  ∃ calls, trace w' = trace w ++ calls ∧
           forallb unwrap_callback calls = true ∧
           length calls ≤ match handlers with Some _ => 1 | None => 0 end.

(** ** Callbacks that return *)

(** [f?.()] returns. *)
Definition returns_normally (f : option callback) : bool :=
  match f with
  | Some cb => negb (cb_throws cb)
  | None => true
  end.

(** No callback selected by [sel] in [entries] throws. *)
Definition quiet {H} (sel : H → option callback) (entries : list (symbol * H)) : bool :=
  forallb (λ e, returns_normally (sel e.2)) entries.

(** ** Mutating calls on the cache *)

(** [set], [delete] and [clear] of the cache. *)
Inductive mutation :=
| CallSet (key : string) (v : jsval) (ttl : option Z)
| CallDelete (key : string)
| CallClear.

Definition mutate (m : mutation) (w : World) : World :=
  match m with
  | CallSet key v ttl => exec (CacheIt_set key v ttl) w
  | CallDelete key => exec (CacheIt_delete key) w
  | CallClear => exec CacheIt_clear w
  end.

(** Consecutive calls; a call that throws is followed by the next one. *)
Fixpoint mutations (ms : list mutation) (w : World) : World :=
  match ms with
  | [] => w
  | m :: rest => mutations rest (mutate m w)
  end.

(** [set] and [clear] always change the cache; [delete] does when it finds
    the key. *)
Definition changes (m : mutation) (w : World) : bool :=
  match m with
  | CallDelete key => bool_decide (is_Some (cache (cacheit w) !! key))
  | _ => true
  end.

(** How many of the calls change the cache, and whether all do. *)
Fixpoint changing (ms : list mutation) (w : World) : nat :=
  match ms with
  | [] => 0
  | m :: rest => (if changes m w then 1 else 0) + changing rest (mutate m w)
  end.

Fixpoint all_change (ms : list mutation) (w : World) : bool :=
  match ms with
  | [] => true
  | m :: rest => changes m w && all_change rest (mutate m w)
  end.

(** [e] is a call of the cache handler registered under [sym]. *)
Definition notifies (sym : symbol) (e : event) : bool :=
  match e with
  | CacheChanged s _ => bool_decide (s = sym)
  | _ => false
  end.

(** How often the cache handler registered under [sym] was called. *)
Definition notifications (sym : symbol) (tr : list event) : nat :=
  length (List.filter (notifies sym) tr).

(** The number of entries of a registry under [sym] (at most one in a
    [Map]). *)
Definition registrations {H} (sym : symbol) (entries : list (symbol * H)) : nat :=
  length (List.filter (λ e, bool_decide (e.1 = sym)) entries).

(** ** Programs using the library *)

(** The calls a program, or the host's scheduler, can make. *)
Inductive call :=
| Cache_set (key : string) (v : jsval) (ttl : option Z)
| Cache_get (key : string)
| Cache_delete (key : string)
| Cache_clear
| Cache_size
| Cache_has (key : string)
| Cache_subscribe (handler : callback)
| Cache_unsubscribe (sub : CacheSubscription)
| Cache_unsubscribeAll
| New_CacheValue (ttl : option Z)
| Slot_update (this : ref) (v : jsval)
| Slot_unwrapCurrent (this : ref) (handlers : option UnwrapHandlers)
| Slot_unwrapPrevious (this : ref) (handlers : option UnwrapHandlers)
| Slot_clear (this : ref)
| Slot_subscribe (this : ref) (handlers : CacheValueSubscriptionHandlers)
| Slot_unsubscribe (sub : CacheValueSubscription)
| Slot_unsubscribeAll (this : ref)
| Timer_fires (i : nat)
| Caller_writes (l : loc) (o : object).

(** The world after a call, however the call ended. *)
Definition perform (c : call) (w : World) : World :=
  match c with
  | Cache_set key v ttl => exec (CacheIt_set key v ttl) w
  | Cache_get key => exec (CacheIt_get key) w
  | Cache_delete key => exec (CacheIt_delete key) w
  | Cache_clear => exec CacheIt_clear w
  | Cache_size => exec CacheIt_size w
  | Cache_has key => exec (CacheIt_has key) w
  | Cache_subscribe handler => exec (CacheIt_subscribe handler) w
  | Cache_unsubscribe sub => exec (CacheSubscription_unsubscribe sub) w
  | Cache_unsubscribeAll => exec CacheIt_unsubscribeAll w
  | New_CacheValue ttl => exec (CacheValue_constructor ttl) w
  | Slot_update this v => exec (CacheValue_update this v) w
  | Slot_unwrapCurrent this handlers => exec (CacheValue_unwrapCurrent this handlers) w
  | Slot_unwrapPrevious this handlers => exec (CacheValue_unwrapPrevious this handlers) w
  | Slot_clear this => exec (CacheValue_clear this) w
  | Slot_subscribe this handlers => exec (CacheValue_subscribe this handlers) w
  | Slot_unsubscribe sub => exec (CacheValueSubscription_unsubscribe sub) w
  | Slot_unsubscribeAll this => exec (CacheValue_unsubscribeAll this) w
  | Timer_fires i => exec (fire i) w
  | Caller_writes l o => exec (write_object l o) w
  end.

(** Consecutive calls. *)
Fixpoint run (cs : list call) (w : World) : World :=
  match cs with
  | [] => w
  | c :: rest => run rest (perform c w)
  end.

(** The registry a symbol can be in: the cache's ([None]) or a slot's. *)
Definition registered_at (w : World) (place : option ref) (sym : symbol) : Prop :=
  match place with
  | None => sym ∈ (cache_subscribers (cacheit w)).*1
  | Some this => ∃ cv, slots w !! this = Some cv ∧ sym ∈ (subscribers cv).*1
  end.

(** Every symbol in a registry came from [Symbol()]. *)
Definition symbols_fresh (w : World) : Prop :=
  ∀ place sym, registered_at w place sym → sym < symbols w.

(** The subscription a logged call was made for. *)
Definition event_symbol (e : event) : option symbol :=
  match e with
  | CacheChanged sym _ | Next sym _ _ | Complete sym _ => Some sym
  | Present _ _ | Absent _ => None
  end.

(** The symbol captured by the [unsubscribe] closure a call runs. *)
Definition unsubscribes (c : call) : option symbol :=
  match c with
  | Cache_unsubscribe sub => Some (csub_symbol sub)
  | Slot_unsubscribe sub => Some (sub_symbol sub)
  | _ => None
  end.


(** The slot a call works on; [None] for the calls on the cache. *)
Definition subject (c : call) (w : World) : option ref :=
  match c with
  | Slot_update this _ | Slot_unwrapCurrent this _ | Slot_unwrapPrevious this _
  | Slot_clear this | Slot_subscribe this _ | Slot_unsubscribeAll this => Some this
  | Slot_unsubscribe sub => Some (sub_this sub)
  | Timer_fires i => timer_this <$> timers w !! i
  | _ => None
  end.

(** [c] is a call on the slot [this]: one of its methods, the closure of a
    subscription made on it (whose symbol is then at least [base], the
    symbol counter when the slot was created), or its timer running. *)
Definition on_slot (this : ref) (base : nat) (c : call) (w : World) : bool :=
  match c with
  | Slot_update t _ | Slot_unwrapCurrent t _ | Slot_unwrapPrevious t _
  | Slot_clear t | Slot_subscribe t _ | Slot_unsubscribeAll t => bool_decide (t = this)
  | Slot_unsubscribe sub =>
      bool_decide (sub_this sub = this) && bool_decide (base ≤ sub_symbol sub)
  | Timer_fires i =>
      match timers w !! i with
      | Some t => bool_decide (timer_this t = this)
      | None => false
      end
  | _ => false
  end.

Fixpoint all_on_slot (this : ref) (base : nat) (cs : list call) (w : World) : bool :=
  match cs with
  | [] => true
  | c :: rest => on_slot this base c w && all_on_slot this base rest (perform c w)
  end.

(** What one call can do to the registries, the slots and the log. *)
Definition footprint (c : call) (w w' : World) : Prop :=
  symbols w ≤ symbols w' ∧
  length (slots w) ≤ length (slots w') ∧
  (∀ place sym, registered_at w' place sym →
     registered_at w place sym ∨ (symbols w ≤ sym ∧ sym < symbols w')) ∧
  (∀ s, subject c w ≠ Some s → s < length (slots w) → slots w' !! s = slots w !! s) ∧
  ∃ calls, trace w' = trace w ++ calls ∧
    ∀ e sym, e ∈ calls → event_symbol e = Some sym →
      registered_at w (subject c w) sym ∨ unsubscribes c = Some sym.

(** ** Kinds of calls, and invariants of worlds *)

(** [set], [delete] and [clear] of the cache. *)
Definition cache_call (c : call) : bool :=
  match c with
  | Cache_set _ _ _ | Cache_delete _ | Cache_clear => true
  | _ => false
  end.

Definition timer_call (c : call) : bool :=
  match c with
  | Timer_fires _ => true
  | _ => false
  end.

(** Every entry of the map refers to a slot that exists. *)
Definition entries_live (w : World) : Prop :=
  ∀ key s, cache (cacheit w) !! key = Some s → s < length (slots w).

(** No registry holds a symbol twice. *)
Definition registries_are_maps (w : World) : Prop :=
  ∀ place, NoDup (match place with
                  | None => (cache_subscribers (cacheit w)).*1
                  | Some this => default [] ((λ cv, (subscribers cv).*1) <$> slots w !! this)
                  end).

(** The values JavaScript treats as false. *)
Definition falsy_values : list jsval :=
  [undefined; Prim PNull; Prim (PBool false); Prim (PNum 0); Prim PNaN;
   Prim (PBigInt 0); Prim (PStr "")].

(** ** Example worlds *)

(** [cache.set("k", 1)] on a new cache: slot 0 holds the number 1. *)
Definition slot_holding_one : World :=
  exec (CacheIt_set "k" (Prim (PNum 1)) None) initial.

(** [cache.set("k", 1, 100)]: slot 0 holds 1 and its timer is pending. *)
Definition slot_with_ttl : World :=
  exec (CacheIt_set "k" (Prim (PNum 1)) (Some 100%Z)) initial.

(** A handler pair with both callbacks. *)
Definition both_handlers : UnwrapHandlers :=
  {| onPresent := Some (Callback 1 false); onAbsent := Some (Callback 2 false) |}.

(** A cache with one subscriber. *)
Definition one_subscriber : World :=
  exec (CacheIt_subscribe (Callback 1 false)) initial.

(** A cache with two subscribers, the first of which throws. *)
Definition throwing_first : World :=
  exec (CacheIt_subscribe (Callback 2 false))
    (exec (CacheIt_subscribe (Callback 1 true)) initial).

(** A cache with two subscribers, the second of which throws. *)
Definition throwing_last : World :=
  exec (CacheIt_subscribe (Callback 2 true))
    (exec (CacheIt_subscribe (Callback 1 false)) initial).

(** A slot with two [next] subscribers, the first of which throws. *)
Definition slot_throwing_first : World :=
  exec (CacheValue_subscribe 0 {| next := Some (Callback 2 false); complete := None |})
    (exec (CacheValue_subscribe 0 {| next := Some (Callback 1 true); complete := None |})
       (exec (CacheValue_constructor None) initial)).


(** A slot with one subscriber that has a [complete] callback, and the
    subscription object it was given. *)
Definition completing : CacheValueSubscriptionHandlers :=
  {| next := Some (Callback 8 false); complete := Some (Callback 9 false) |}.

Definition subscribed_slot : World :=
  exec (CacheValue_subscribe 0 completing) slot_holding_one.


(** An object [{test: "test"}] and what it becomes after
    [value.test = "updated"]. *)
Definition a_record : object := [("test", Leaf (PStr "test"))].
Definition changed_record : object := [("test", Leaf (PStr "updated"))].

(** A function object, here with one property of its own, and what it
    becomes after [f.calls = 1]. *)
Definition a_function : object :=
  [("[[Call]]", Leaf PUndefined); ("calls", Leaf (PNum 0))].
Definition changed_function : object :=
  [("[[Call]]", Leaf PUndefined); ("calls", Leaf (PNum 1))].

(** A new slot, and a function the caller holds at address 0. *)
Definition holding_a_function : World :=
  exec (CacheValue_constructor None) (set_heap [a_function] initial).

(** The caller's object lives at address 0. *)
Definition holding_a_record : World := set_heap [a_record] initial.

(** [cache.set("key", value)] with that object. *)
Definition record_stored : World :=
  exec (CacheIt_set "key" (Ref 0) None) holding_a_record.

(** * Reasoning about the embedding *)

Ltac js_unfold :=
  cbv [mbind JS_bind mret JS_ret gets modify throw exec result].

Section PassFacts.
Context {H : Type} (sel : H → option callback) (ev : symbol → nat → event).

Lemma forEach_pass entries w :
  forEach entries (λ sym h, call_opt (sel h) (ev sym)) w
  = (pass_outcome sel entries, set_trace (trace w ++ pass_events sel ev entries) w).
Proof.
  revert w. induction entries as [|[sym h] rest IH]; intros w; simpl.
  - rewrite app_nil_r. by destruct w.
  - unfold mbind, JS_bind, call_opt. destruct (sel h) as [cb|]; simpl.
    + unfold invoke, emit, modify, mbind, JS_bind; simpl.
      destruct (cb_throws cb); simpl.
      * done.
      * rewrite IH. simpl. by rewrite <- app_assoc.
    + apply IH.
Qed.

(** Every call of a pass is made for an entry of the registry. *)
Lemma pass_events_registered entries e :
  e ∈ pass_events sel ev entries →
  ∃ sym h cb, (sym, h) ∈ entries ∧ sel h = Some cb ∧ e = ev sym (cb_id cb).
Proof.
  induction entries as [|[sym h] rest IH]; simpl.
  - by intros ?%elem_of_nil.
  - destruct (sel h) as [cb|] eqn:Hsel.
    + intros [->|Hin]%elem_of_cons.
      * exists sym, h, cb. split_and!; [left | done | done].
      * destruct (cb_throws cb); [by apply elem_of_nil in Hin|].
        destruct (IH Hin) as (sym' & h' & cb' & ? & ? & ?).
        exists sym', h', cb'. split_and!; [by right | done | done].
    + intros Hin. destruct (IH Hin) as (sym' & h' & cb' & ? & ? & ?).
      exists sym', h', cb'. split_and!; [by right | done | done].
Qed.
End PassFacts.

(** ** What each method does to the world *)

Lemma set_heap_id w : set_heap (heap w) w = w.
Proof. by destruct w. Qed.

Lemma isolate_eq v w :
  isolate v w = (Normal (isolated (heap w) v), set_heap (isolated_heap (heap w) v) w).
Proof.
  unfold isolate. js_unfold. destruct v as [p|l]; cbn.
  - destruct p; by rewrite set_heap_id.
  - destruct (callable (deref (heap w) l)); cbn; [by rewrite set_heap_id | done].
Qed.

Lemma list_alter_lookup {A} (f : A → A) (l : list A) i x :
  l !! i = Some x → alter f i l = <[i := f x]> l.
Proof.
  revert i. induction l as [|y l IH]; intros [|i]; simpl; try done.
  - by intros [= ->].
  - intros Hi. f_equal. by apply IH.
Qed.

Lemma CacheValue_notifySubscribers_eq this isComplete cv w :
  slots w !! this = Some cv →
  CacheValue_notifySubscribers this isComplete w =
    if default false isComplete
    then (pass_outcome complete (subscribers cv),
          set_trace (trace w ++ pass_events complete Complete (subscribers cv)) w)
    else (pass_outcome next (subscribers cv),
          set_trace (trace w ++ pass_events next (λ sym cb, Next sym cb this)
                                              (subscribers cv)) w).
Proof.
  intros Hcv. unfold CacheValue_notifySubscribers, this_slot.
  js_unfold. rewrite Hcv.
  destruct (default false isComplete).
  - apply (forEach_pass complete Complete).
  - apply (forEach_pass next (λ sym cb, Next sym cb this)).
Qed.

Lemma CacheIt_notifySubscribers_eq w :
  CacheIt_notifySubscribers w =
  (pass_outcome Some (cache_subscribers (cacheit w)),
   set_trace (trace w ++ pass_events Some CacheChanged (cache_subscribers (cacheit w))) w).
Proof.
  unfold CacheIt_notifySubscribers. js_unfold.
  apply (forEach_pass Some CacheChanged).
Qed.

Lemma CacheValue_update_eq this v cv w :
  slots w !! this = Some cv →
  CacheValue_update this v w =
    let old := isolated (heap w) (current (value cv)) in
    let h1 := isolated_heap (heap w) (current (value cv)) in
    let new := isolated h1 v in
    (pass_outcome next (subscribers cv),
     {| heap := isolated_heap h1 v;
        slots := <[this := {| value := {| current := new; previous := old |};
                              subscribers := subscribers cv |}]> (slots w);
        cacheit := cacheit w; timers := timers w; symbols := symbols w;
        trace := trace w ++ pass_events next (λ sym cb, Next sym cb this)
                                        (subscribers cv) |}).
Proof.
  intros Hcv. unfold CacheValue_update, this_slot, write_slot.
  js_unfold. rewrite Hcv, isolate_eq, isolate_eq.
  assert (Hlt : this < length (slots w)) by by eapply lookup_lt_Some.
  erewrite (CacheValue_notifySubscribers_eq this None); last first.
  { cbn. rewrite (list_alter_lookup _ _ _ _ Hcv).
    erewrite list_alter_lookup; [|by apply list_lookup_insert_eq].
    by apply list_lookup_insert_eq; rewrite length_insert. }
  cbn. f_equal. f_equal.
  rewrite (list_alter_lookup _ _ _ _ Hcv).
  erewrite list_alter_lookup; [|by apply list_lookup_insert_eq].
  by rewrite list_insert_insert_eq.
Qed.
Lemma CacheValue_constructor_eq ttl w :
  CacheValue_constructor ttl w =
    (Normal (length (slots w)),
     {| heap := heap w; slots := slots w ++ [empty_slot]; cacheit := cacheit w;
        timers := timers w ++ armed (length (slots w)) ttl;
        symbols := symbols w; trace := trace w |}).
Proof.
  unfold CacheValue_constructor, setTimeout. js_unfold.
  destruct ttl; cbn; [done|]. by rewrite app_nil_r.
Qed.

Lemma CacheValue_update_missing this v w :
  slots w !! this = None → CacheValue_update this v w = (Thrown TypeError, w).
Proof.
  intros Hcv. unfold CacheValue_update, this_slot. js_unfold. by rewrite Hcv.
Qed.

Lemma CacheValue_clear_eq this cv w :
  slots w !! this = Some cv →
  CacheValue_clear this w =
    (pass_outcome next (subscribers cv),
     {| heap := heap w;
        slots := <[this := {| value := {| current := undefined; previous := undefined |};
                              subscribers := subscribers cv |}]> (slots w);
        cacheit := cacheit w; timers := timers w; symbols := symbols w;
        trace := trace w ++ pass_events next (λ sym cb, Next sym cb this)
                                        (subscribers cv) |}).
Proof.
  intros Hcv. unfold CacheValue_clear, this_slot, write_slot.
  js_unfold. rewrite Hcv.
  assert (Hlt : this < length (slots w)) by by eapply lookup_lt_Some.
  erewrite (CacheValue_notifySubscribers_eq this None); last first.
  { cbn. rewrite (list_alter_lookup _ _ _ _ Hcv).
    erewrite list_alter_lookup; [|by apply list_lookup_insert_eq].
    by apply list_lookup_insert_eq; rewrite length_insert. }
  cbn. f_equal. f_equal.
  rewrite (list_alter_lookup _ _ _ _ Hcv).
  erewrite list_alter_lookup; [|by apply list_lookup_insert_eq].
  by rewrite list_insert_insert_eq.
Qed.

Lemma CacheValue_clear_missing this w :
  slots w !! this = None → CacheValue_clear this w = (Thrown TypeError, w).
Proof.
  intros Hcv. unfold CacheValue_clear, this_slot. js_unfold. by rewrite Hcv.
Qed.

Lemma call_opt_eq f ev w :
  call_opt f ev w = (call_outcome f, set_trace (trace w ++ call_events f ev) w).
Proof.
  destruct f as [cb|]; cbn.
  - unfold invoke, emit. js_unfold. by destruct (cb_throws cb).
  - rewrite app_nil_r. by destruct w.
Qed.

Lemma CacheValue_unwrapCurrent_eq this handlers cv w :
  slots w !! this = Some cv →
  CacheValue_unwrapCurrent this handlers w
  = unwrapped (current (value cv)) handlers w.
Proof.
  intros Hcv. unfold CacheValue_unwrapCurrent, this_slot, unwrapped.
  js_unfold. rewrite Hcv. destruct handlers as [h|]; [|done].
  unfold unwrap_call, unwrap_event.
  destruct (truthy (current (value cv))); rewrite call_opt_eq;
    by destruct (call_outcome _).
Qed.

Lemma CacheValue_unwrapPrevious_eq this handlers cv w :
  slots w !! this = Some cv →
  CacheValue_unwrapPrevious this handlers w
  = unwrapped (previous (value cv)) handlers w.
Proof.
  intros Hcv. unfold CacheValue_unwrapPrevious, this_slot, unwrapped.
  js_unfold. rewrite Hcv. destruct handlers as [h|]; [|done].
  unfold unwrap_call, unwrap_event.
  destruct (truthy (previous (value cv))); rewrite call_opt_eq;
    by destruct (call_outcome _).
Qed.

Lemma CacheValue_unwrapCurrent_missing this handlers w :
  slots w !! this = None →
  CacheValue_unwrapCurrent this handlers w = (Thrown TypeError, w).
Proof.
  intros Hcv. unfold CacheValue_unwrapCurrent, this_slot. js_unfold. by rewrite Hcv.
Qed.

Lemma CacheValue_unwrapPrevious_missing this handlers w :
  slots w !! this = None →
  CacheValue_unwrapPrevious this handlers w = (Thrown TypeError, w).
Proof.
  intros Hcv. unfold CacheValue_unwrapPrevious, this_slot. js_unfold. by rewrite Hcv.
Qed.

Lemma CacheValue_subscribe_eq this handlers cv w :
  slots w !! this = Some cv →
  CacheValue_subscribe this handlers w =
    (Normal {| sub_this := this; sub_symbol := symbols w; sub_handlers := handlers |},
     {| heap := heap w;
        slots := <[this := {| value := value cv;
                              subscribers := Map_set (symbols w) handlers (subscribers cv) |}]>
                   (slots w);
        cacheit := cacheit w; timers := timers w; symbols := S (symbols w);
        trace := trace w |}).
Proof.
  intros Hcv. unfold CacheValue_subscribe, this_slot, write_slot, Symbol.
  js_unfold. rewrite Hcv. cbn. by rewrite (list_alter_lookup _ _ _ _ Hcv).
Qed.

Lemma CacheValue_subscribe_missing this handlers w :
  slots w !! this = None →
  CacheValue_subscribe this handlers w = (Thrown TypeError, w).
Proof.
  intros Hcv. unfold CacheValue_subscribe, this_slot. js_unfold. by rewrite Hcv.
Qed.

Lemma CacheValueSubscription_unsubscribe_eq sub w :
  CacheValueSubscription_unsubscribe sub w =
    match call_outcome (complete (sub_handlers sub)) with
    | Normal _ =>
        (Normal (),
         {| heap := heap w;
            slots := alter (λ cv, set_subscribers
                                    (Map_delete (sub_symbol sub) (subscribers cv)) cv)
                       (sub_this sub) (slots w);
            cacheit := cacheit w; timers := timers w; symbols := symbols w;
            trace := trace w ++ call_events (complete (sub_handlers sub))
                                            (Complete (sub_symbol sub)) |})
    | Thrown e =>
        (Thrown e,
         set_trace (trace w ++ call_events (complete (sub_handlers sub))
                                           (Complete (sub_symbol sub))) w)
    end.
Proof.
  unfold CacheValueSubscription_unsubscribe, write_slot. js_unfold.
  rewrite call_opt_eq. by destruct (call_outcome _).
Qed.

Lemma CacheValue_unsubscribeAll_eq this cv w :
  slots w !! this = Some cv →
  CacheValue_unsubscribeAll this w =
    match pass_outcome complete (subscribers cv) with
    | Normal _ =>
        (Normal (),
         {| heap := heap w;
            slots := <[this := {| value := value cv; subscribers := [] |}]> (slots w);
            cacheit := cacheit w; timers := timers w; symbols := symbols w;
            trace := trace w ++ pass_events complete Complete (subscribers cv) |})
    | Thrown e =>
        (Thrown e,
         set_trace (trace w ++ pass_events complete Complete (subscribers cv)) w)
    end.
Proof.
  intros Hcv. unfold CacheValue_unsubscribeAll, write_slot. js_unfold.
  rewrite (CacheValue_notifySubscribers_eq this (Some true) cv w Hcv). cbn.
  destruct (pass_outcome _ _); [|done].
  cbn. by rewrite (list_alter_lookup _ _ _ _ Hcv).
Qed.

Lemma CacheValue_unsubscribeAll_missing this w :
  slots w !! this = None →
  CacheValue_unsubscribeAll this w = (Thrown TypeError, w).
Proof.
  intros Hcv.
  unfold CacheValue_unsubscribeAll, CacheValue_notifySubscribers, this_slot.
  js_unfold. by rewrite Hcv.
Qed.

Lemma CacheIt_set_eq key v ttl w :
  CacheIt_set key v ttl w =
    let this := length (slots w) in
    (returning (pass_outcome Some (cache_subscribers (cacheit w))) this,
     {| heap := isolated_heap (heap w) v;
        slots := slots w ++ [{| value := {| current := isolated (heap w) v;
                                            previous := undefined |};
                                subscribers := [] |}];
        cacheit := set_cache (<[key := this]> (cache (cacheit w))) (cacheit w);
        timers := timers w ++ armed this ttl;
        symbols := symbols w;
        trace := trace w ++ pass_events Some CacheChanged
                                        (cache_subscribers (cacheit w)) |}).
Proof.
  unfold CacheIt_set, modify_cacheit. js_unfold.
  rewrite CacheValue_constructor_eq.
  erewrite CacheValue_update_eq; last first.
  { cbn. by apply list_lookup_middle. }
  cbn. rewrite app_nil_r, CacheIt_notifySubscribers_eq. cbn.
  rewrite (insert_app_r_alt _ _ (length (slots w))) by lia.
  rewrite Nat.sub_diag. cbn.
  by destruct (pass_outcome _ _).
Qed.

Lemma CacheIt_delete_eq key w :
  CacheIt_delete key w =
    if bool_decide (is_Some (cache (cacheit w) !! key))
    then (returning (pass_outcome Some (cache_subscribers (cacheit w))) true,
          {| heap := heap w; slots := slots w;
             cacheit := set_cache (delete key (cache (cacheit w))) (cacheit w);
             timers := timers w; symbols := symbols w;
             trace := trace w ++ pass_events Some CacheChanged
                                             (cache_subscribers (cacheit w)) |})
    else (Normal false, w).
Proof.
  unfold CacheIt_delete, modify_cacheit. js_unfold.
  case_bool_decide as Hk.
  - rewrite CacheIt_notifySubscribers_eq. cbn. by destruct (pass_outcome _ _).
  - rewrite <- eq_None_not_Some in Hk. rewrite delete_id by done.
    destruct w as [? ? [? ?] ? ? ?]; done.
Qed.

Lemma CacheIt_clear_eq w :
  CacheIt_clear w =
    (pass_outcome Some (cache_subscribers (cacheit w)),
     {| heap := heap w; slots := slots w;
        cacheit := set_cache ∅ (cacheit w);
        timers := timers w; symbols := symbols w;
        trace := trace w ++ pass_events Some CacheChanged
                                        (cache_subscribers (cacheit w)) |}).
Proof.
  unfold CacheIt_clear, modify_cacheit. js_unfold.
  by rewrite CacheIt_notifySubscribers_eq.
Qed.

Lemma fire_eq i t w :
  timers w !! i = Some t →
  fire i w = CacheValue_update (timer_this t) undefined (set_timers (delete i (timers w)) w).
Proof.
  intros Ht. unfold fire. js_unfold. by rewrite Ht.
Qed.

Lemma fire_missing i w :
  timers w !! i = None → fire i w = (Normal (), w).
Proof.
  intros Ht. unfold fire. js_unfold. by rewrite Ht.
Qed.

(** ** The heap only grows under [isolate] *)

Lemma deref_grow h ext l : l < length h → deref (h ++ ext) l = deref h l.
Proof. intros Hl. unfold deref. by rewrite lookup_app_l. Qed.

Lemma observe_grow h ext v :
  allocated h v → observe (h ++ ext) v = observe h v.
Proof. destruct v as [p|l]; cbn; [done|]. intros Hl. by rewrite deref_grow. Qed.

Lemma allocated_grow h ext v : allocated h v → allocated (h ++ ext) v.
Proof. destruct v as [p|l]; cbn; [done|]. rewrite length_app. lia. Qed.

Lemma isolated_heap_grows h v : ∃ ext, isolated_heap h v = h ++ ext.
Proof.
  destruct v as [p|l]; cbn; [exists []; by rewrite app_nil_r|].
  destruct (callable (deref h l)); [exists []; by rewrite app_nil_r | by eexists].
Qed.

(** A function is an object that exists. *)
Lemma callable_allocated h l : callable (deref h l) = true → l < length h.
Proof.
  unfold deref. destruct (h !! l) as [o|] eqn:Hl; [|done].
  intros _. by eapply lookup_lt_Some.
Qed.

Lemma is_function_Ref h l : is_function h (Ref l) = callable (deref h l).
Proof. unfold is_function. cbn. by destruct (callable (deref h l)). Qed.

Lemma is_function_Prim h p : is_function h (Prim p) = false.
Proof. by destruct p. Qed.

(** Copying a value makes no function of what was none. *)
Lemma is_function_isolated_heap h u v :
  is_function h v = false → is_function (isolated_heap h u) v = false.
Proof.
  destruct v as [p|a]; [by rewrite !is_function_Prim|].
  rewrite !is_function_Ref. intros Hv.
  destruct u as [p|c]; cbn; [done|].
  destruct (callable (deref h c)) eqn:Hc; [done|].
  destruct (decide (a < length h)) as [Ha|Ha]; [by rewrite deref_grow|].
  unfold deref at 1. destruct (decide (a = length h)) as [->|Hne].
  - by rewrite list_lookup_middle.
  - rewrite lookup_ge_None_2; [done|]. rewrite length_app. cbn. lia.
Qed.

Lemma isolated_allocated h v : allocated (isolated_heap h v) (isolated h v).
Proof.
  destruct v as [p|l]; cbn; [done|].
  destruct (callable (deref h l)) eqn:Hf; cbn.
  - by apply callable_allocated.
  - rewrite length_app. cbn. lia.
Qed.

(** The copy reads as the original did. *)
Lemma observe_isolated h v :
  observe (isolated_heap h v) (isolated h v) = observe h v.
Proof.
  destruct v as [p|l]; cbn; [done|].
  destruct (callable (deref h l)); cbn; [done|].
  unfold deref at 1. by rewrite list_lookup_middle.
Qed.

(** ** One [update], seen through the unwrap methods *)

Lemma update_slot_after this v cv w :
  slots w !! this = Some cv →
  slots (exec (CacheValue_update this v) w) !! this
  = Some {| value :=
              {| current := isolated (isolated_heap (heap w) (current (value cv))) v;
                 previous := isolated (heap w) (current (value cv)) |};
            subscribers := subscribers cv |}.
Proof.
  intros Hcv. unfold exec. rewrite (CacheValue_update_eq _ _ _ _ Hcv). cbn.
  apply list_lookup_insert_eq. by eapply lookup_lt_Some.
Qed.

Lemma update_heap_after this v cv w :
  slots w !! this = Some cv →
  heap (exec (CacheValue_update this v) w)
  = isolated_heap (isolated_heap (heap w) (current (value cv))) v.
Proof. intros Hcv. unfold exec. by rewrite (CacheValue_update_eq _ _ _ _ Hcv). Qed.

Lemma unwrapCurrent_result this cv w :
  slots w !! this = Some cv →
  result (CacheValue_unwrapCurrent this None) w = Normal (current (value cv)).
Proof.
  intros Hcv. unfold result. by rewrite (CacheValue_unwrapCurrent_eq _ _ _ _ Hcv).
Qed.

Lemma unwrapPrevious_result this cv w :
  slots w !! this = Some cv →
  result (CacheValue_unwrapPrevious this None) w = Normal (previous (value cv)).
Proof.
  intros Hcv. unfold result. by rewrite (CacheValue_unwrapPrevious_eq _ _ _ _ Hcv).
Qed.

Lemma update_history this v cv w :
  slots w !! this = Some cv →
  allocated (heap w) v →
  let w' := exec (CacheValue_update this v) w in
  ∃ cv', slots w' !! this = Some cv' ∧
    subscribers cv' = subscribers cv ∧
    observe (heap w') (previous (value cv')) = observe (heap w) (current (value cv)) ∧
    observe (heap w') (current (value cv')) = observe (heap w) v ∧
    allocated (heap w') (current (value cv')) ∧
    ∃ ext, heap w' = heap w ++ ext.
Proof.
  intros Hcv Hv w'. subst w'.
  eexists. split; [by apply update_slot_after|].
  rewrite (update_heap_after _ _ _ _ Hcv). cbn.
  set (cur := current (value cv)).
  destruct (isolated_heap_grows (heap w) cur) as [e1 He1].
  destruct (isolated_heap_grows (isolated_heap (heap w) cur) v) as [e2 He2].
  split_and!.
  - done.
  - rewrite He2, observe_grow by apply isolated_allocated.
    apply observe_isolated.
  - rewrite observe_isolated, He1. by apply observe_grow.
  - apply isolated_allocated.
  - exists (e1 ++ e2). by rewrite He2, He1, app_assoc.
Qed.

(** ** Passes over registries whose callbacks return, and the first throw *)

Section PassSplit.
Context {H : Type} (sel : H → option callback) (ev : symbol → nat → event).

Lemma pass_outcome_quiet entries :
  quiet sel entries = true → pass_outcome sel entries = Normal ().
Proof.
  induction entries as [|[sym h] rest IH]; cbn; [done|].
  intros [Hh Hrest]%andb_true_iff. destruct (sel h) as [cb|]; cbn in *.
  - destruct (cb_throws cb); [done|]. by apply IH.
  - by apply IH.
Qed.

Lemma pass_events_app_quiet pre post :
  quiet sel pre = true →
  pass_events sel ev (pre ++ post) = pass_events sel ev pre ++ pass_events sel ev post.
Proof.
  induction pre as [|[sym h] rest IH]; cbn; [done|].
  intros [Hh Hrest]%andb_true_iff. destruct (sel h) as [cb|]; cbn in *.
  - destruct (cb_throws cb); [done|]. by rewrite IH.
  - by apply IH.
Qed.


(** A pass in which a callback of [pre] throws never reaches what follows. *)
Lemma pass_events_app_throw pre post :
  quiet sel pre = false →
  pass_events sel ev (pre ++ post) = pass_events sel ev pre.
Proof.
  induction pre as [|[sym h] rest IH]; cbn; [done|].
  destruct (sel h) as [cb|]; cbn.
  - destruct (cb_throws cb); cbn; [done|]. intros Hq. by rewrite IH.
  - apply IH.
Qed.

End PassSplit.

(** When every cache handler returns, a pass calls each of them once, in
    insertion order. *)
Lemma cache_pass_quiet (entries : list (symbol * CacheSubscriptionHandler)) :
  quiet Some entries = true →
  pass_events Some CacheChanged entries
  = map (λ e, CacheChanged e.1 (cb_id e.2)) entries.
Proof.
  induction entries as [|[sym h] rest IH]; cbn; [done|].
  intros [Hh Hrest]%andb_true_iff. destruct (cb_throws h); [done|].
  by rewrite IH.
Qed.

(** ** Counting cache notifications *)

Lemma notifications_app sym tr1 tr2 :
  notifications sym (tr1 ++ tr2) = notifications sym tr1 + notifications sym tr2.
Proof. unfold notifications. by rewrite List.filter_app, length_app. Qed.

Lemma notifications_pass sym (entries : list (symbol * callback)) :
  notifications sym (map (λ e, CacheChanged e.1 (cb_id e.2)) entries)
  = registrations sym entries.
Proof.
  unfold notifications, registrations.
  induction entries as [|[s h] rest IH]; cbn; [done|].
  destruct (bool_decide (s = sym)); cbn; by rewrite IH.
Qed.

(** When only the last handler may throw, a pass still calls every
    handler. *)
Lemma cache_pass_all_but_last (entries : list (symbol * callback)) :
  quiet Some (removelast entries) = true →
  pass_events Some CacheChanged entries
  = map (λ e, CacheChanged e.1 (cb_id e.2)) entries.
Proof.
  destruct (decide (entries = [])) as [->|Hne]; [done|].
  intros Hq. rewrite (app_removelast_last (0, Callback 0 false) Hne) at 1 2.
  rewrite pass_events_app_quiet, map_app, cache_pass_quiet by done.
  f_equal. set (e := List.last _ _). clearbody e.
  destruct e as [s h]. cbn. by destruct (cb_throws h).
Qed.

Lemma mutate_subscribers m w :
  cache_subscribers (cacheit (mutate m w)) = cache_subscribers (cacheit w).
Proof.
  destruct m as [key v ttl|key|]; cbn; unfold exec.
  - by rewrite CacheIt_set_eq.
  - rewrite CacheIt_delete_eq. by case_bool_decide.
  - by rewrite CacheIt_clear_eq.
Qed.

Lemma mutate_trace m w :
  trace (mutate m w)
  = trace w ++ (if changes m w
                then pass_events Some CacheChanged (cache_subscribers (cacheit w))
                else []).
Proof.
  destruct m as [key v ttl|key|]; cbn; unfold exec.
  - by rewrite CacheIt_set_eq.
  - rewrite CacheIt_delete_eq. case_bool_decide; cbn; [done|]. by rewrite app_nil_r.
  - by rewrite CacheIt_clear_eq.
Qed.

(** A pass calls no handler of a symbol that is not registered. *)
Lemma notifications_pass_absent sym (entries : list (symbol * callback)) :
  sym ∉ entries.*1 →
  notifications sym (pass_events Some CacheChanged entries) = 0.
Proof.
  unfold notifications. induction entries as [|[s h] rest IH]; [done|].
  rewrite fmap_cons. intros [Hne Hrest]%not_elem_of_cons. cbn in *.
  rewrite bool_decide_false by done. destruct (cb_throws h); [done|].
  by apply IH.
Qed.

(** In one pass a subscriber is called once when every handler registered
    before it returns, and not at all when one of them throws. *)
Lemma notifications_one_pass sym h pre post :
  NoDup (pre ++ (sym, h) :: post).*1 →
  notifications sym (pass_events Some CacheChanged (pre ++ (sym, h) :: post))
  = if quiet Some pre then 1 else 0.
Proof.
  rewrite fmap_app, fmap_cons. intros (_ & Hmid & Hpost)%NoDup_app. cbn in *.
  apply NoDup_cons in Hpost as [Hpost _].
  assert (Hpre : sym ∉ pre.*1) by (intros Hin; apply (Hmid _ Hin); left).
  destruct (quiet Some pre) eqn:Hq.
  - rewrite pass_events_app_quiet, notifications_app, notifications_pass_absent
      by done.
    change (pass_events Some CacheChanged ((sym, h) :: post))
      with ([CacheChanged sym (cb_id h)]
              ++ (if cb_throws h then [] else pass_events Some CacheChanged post)).
    rewrite notifications_app. unfold notifications at 1. cbn.
    rewrite bool_decide_true by done. cbn.
    destruct (cb_throws h); [done|]. by rewrite notifications_pass_absent.
  - rewrite pass_events_app_throw by done. by apply notifications_pass_absent.
Qed.

Lemma notifications_mutations sym h pre post ms w :
  cache_subscribers (cacheit w) = pre ++ (sym, h) :: post →
  NoDup (cache_subscribers (cacheit w)).*1 →
  notifications sym (trace (mutations ms w))
  = notifications sym (trace w)
    + changing ms w * (if quiet Some pre then 1 else 0).
Proof.
  revert w. induction ms as [|m rest IH]; intros w Hsubs Hmap; cbn; [lia|].
  rewrite IH by by rewrite mutate_subscribers.
  rewrite mutate_trace, notifications_app.
  destruct (changes m w); cbn.
  - rewrite Hsubs, notifications_one_pass by by rewrite <- Hsubs. lia.
  - lia.
Qed.

Lemma all_change_changing ms w :
  all_change ms w = true → changing ms w = length ms.
Proof.
  revert w. induction ms as [|m rest IH]; intros w; cbn; [done|].
  intros [-> Hrest]%andb_true_iff. by rewrite IH.
Qed.

(** ** Registries *)

Lemma elem_of_Map_set {H} (k : symbol) (h : H) (m : list (symbol * H)) sym :
  sym ∈ (Map_set k h m).*1 → sym ∈ m.*1 ∨ sym = k.
Proof.
  induction m as [|[k' h'] rest IH]; cbn.
  - intros [->|?%elem_of_nil]%elem_of_cons; [by right | done].
  - destruct (decide (k' = k)) as [->|Hne]; cbn.
    + intros [->|Hin]%elem_of_cons; [by right | left; by right].
    + intros [->|Hin]%elem_of_cons; [left; by left|].
      destruct (IH Hin) as [?|?]; [left; by right | by right].
Qed.

Lemma elem_of_Map_delete {H} (k : symbol) (m : list (symbol * H)) sym :
  sym ∈ (Map_delete k m).*1 ↔ sym ∈ m.*1 ∧ sym ≠ k.
Proof.
  unfold Map_delete. rewrite !list_elem_of_fmap. split.
  - intros ([s h] & -> & [Hne Hin]%list_elem_of_filter). split; [by eexists|done].
  - intros [([s h] & -> & Hin) Hne]. exists (s, h). split; [done|].
    by apply list_elem_of_filter.
Qed.


Lemma list_alter_missing {A} (f : A → A) (l : list A) i :
  l !! i = None → alter f i l = l.
Proof.
  revert i. induction l as [|y l IH]; intros [|i]; cbn; try done.
  intros Hi. f_equal. by apply IH.
Qed.

(** ** The footprint of a call *)

(** The three ways a call changes the slot store. *)
Inductive slots_step (c : call) (w w' : World) : Prop :=
| slots_same :
    slots w' = slots w → slots_step c w w'
| slots_created cv' :
    slots w' = slots w ++ [cv'] → subscribers cv' = [] → slots_step c w w'
| slots_written this cv cv' :
    subject c w = Some this →
    slots w !! this = Some cv →
    slots w' = <[this := cv']> (slots w) →
    (∀ sym, sym ∈ (subscribers cv').*1 →
       sym ∈ (subscribers cv).*1 ∨ (symbols w ≤ sym ∧ sym < symbols w')) →
    slots_step c w w'.

Lemma footprint_intro c w w' calls :
  symbols w ≤ symbols w' →
  (∀ sym, sym ∈ (cache_subscribers (cacheit w')).*1 →
     sym ∈ (cache_subscribers (cacheit w)).*1 ∨ (symbols w ≤ sym ∧ sym < symbols w')) →
  slots_step c w w' →
  trace w' = trace w ++ calls →
  (∀ e sym, e ∈ calls → event_symbol e = Some sym →
     registered_at w (subject c w) sym ∨ unsubscribes c = Some sym) →
  footprint c w w'.
Proof.
  intros Hsym Hcache Hslots Htrace Hevents. unfold footprint.
  split; [done|]. split_and!.
  - destruct Hslots as [->| cv' -> _ | this cv cv' _ _ -> _];
      rewrite ?length_app, ?length_insert; lia.
  - intros [s|] sym; cbn; [|by apply Hcache].
    intros (cv1 & Hcv1 & Hin).
    destruct Hslots as [Heq | cv' Heq Hempty | this cv cv' _ Hcv Heq Hsubs].
    + left. exists cv1. by rewrite <- Heq.
    + rewrite Heq in Hcv1. apply lookup_app_Some in Hcv1 as [Hcv1|[_ Hcv1]].
      * left. by exists cv1.
      * apply list_lookup_singleton_Some in Hcv1 as [_ <-].
        rewrite Hempty in Hin. by apply elem_of_nil in Hin.
    + rewrite Heq in Hcv1. destruct (decide (s = this)) as [->|Hne].
      * rewrite list_lookup_insert_eq in Hcv1 by by eapply lookup_lt_Some.
        injection Hcv1 as <-. destruct (Hsubs _ Hin) as [?|?]; [left|by right].
        by exists cv.
      * rewrite list_lookup_insert_ne in Hcv1 by done. left. by exists cv1.
  - intros s Hs Hlt.
    destruct Hslots as [-> | cv' -> _ | this cv cv' Hsub _ -> _]; [done| |].
    + by rewrite lookup_app_l.
    + rewrite list_lookup_insert_ne; [done|]. intros ->. by rewrite Hsub in Hs.
  - by exists calls.
Qed.

(** A call that only adds symbol-free entries to the log. *)
Lemma footprint_log c w calls :
  (∀ e, e ∈ calls → event_symbol e = None) →
  footprint c w (set_trace (trace w ++ calls) w).
Proof.
  intros Hcalls. apply (footprint_intro _ _ _ calls); cbn; [lia|by left| |done|].
  - by apply slots_same.
  - intros e sym He Hsym. by rewrite (Hcalls e He) in Hsym.
Qed.

Lemma footprint_refl c w : footprint c w w.
Proof.
  apply (footprint_intro _ _ _ []); [lia|by left|by apply slots_same| |].
  - by rewrite app_nil_r.
  - by intros e sym ?%elem_of_nil.
Qed.

Lemma unwrapped_footprint c v handlers w : footprint c w (unwrapped v handlers w).2.
Proof.
  destruct handlers as [h|]; cbn; [|apply footprint_refl].
  apply footprint_log. unfold unwrap_call, unwrap_event.
  destruct (truthy v); [destruct (onPresent h)|destruct (onAbsent h)]; cbn;
    intros e He; try (by apply elem_of_nil in He);
    by apply list_elem_of_singleton in He as ->.
Qed.

(** The calls of a cache pass are made for entries of the cache registry. *)
Lemma cache_pass_registered w e sym :
  e ∈ pass_events Some CacheChanged (cache_subscribers (cacheit w)) →
  event_symbol e = Some sym →
  registered_at w None sym.
Proof.
  intros (s & h & cb & Hin & _ & ->)%pass_events_registered [= <-]. cbn.
  apply list_elem_of_fmap. by exists (s, h).
Qed.

(** The calls of a slot pass are made for entries of that slot's registry. *)
Lemma slot_pass_registered sel ev w this cv e sym :
  slots w !! this = Some cv →
  (∀ s c, event_symbol (ev s c) = Some s) →
  e ∈ pass_events sel ev (subscribers cv) →
  event_symbol e = Some sym →
  registered_at w (Some this) sym.
Proof.
  intros Hcv Hev (s & h & cb & Hin & _ & ->)%pass_events_registered.
  rewrite Hev. intros [= <-]. exists cv. split; [done|].
  apply list_elem_of_fmap. by exists (s, h).
Qed.

Lemma update_footprint c this v w :
  subject c w = Some this →
  unsubscribes c = None →
  footprint c w (exec (CacheValue_update this v) w).
Proof.
  intros Hsub Hun. unfold exec. destruct (slots w !! this) as [cv|] eqn:Hcv.
  - rewrite (CacheValue_update_eq _ _ _ _ Hcv).
    eapply footprint_intro; cbn; [lia|by left| |done|].
    + eapply (slots_written _ _ _ this cv); cbn; [done..|]. by left.
    + intros e sym He Hsym. left. rewrite Hsub.
      by eapply (slot_pass_registered next (λ s c, Next s c this)).
  - rewrite (CacheValue_update_missing _ _ _ Hcv). apply footprint_refl.
Qed.

Lemma perform_footprint c w : footprint c w (perform c w).
Proof.
  destruct c as [ key v ttl | key | key | | | key | handler | sub | | ttl
                | this v | this handlers | this handlers | this | this handlers
                | sub | this | i | l o ]; cbn [perform].
  - (* set *)
    unfold exec. rewrite CacheIt_set_eq.
    eapply footprint_intro; cbn; [lia|by left| |done|].
    + by eapply slots_created.
    + intros e sym He Hsym. left. by eapply cache_pass_registered.
  - (* get *)
    unfold exec, CacheIt_get. js_unfold.
    destruct (cache (cacheit w) !! key); apply footprint_refl.
  - (* delete *)
    unfold exec. rewrite CacheIt_delete_eq. case_bool_decide; [|apply footprint_refl].
    eapply footprint_intro; cbn; [lia|by left|by apply slots_same|done|].
    intros e sym He Hsym. left. by eapply cache_pass_registered.
  - (* clear *)
    unfold exec. rewrite CacheIt_clear_eq.
    eapply footprint_intro; cbn; [lia|by left|by apply slots_same|done|].
    intros e sym He Hsym. left. by eapply cache_pass_registered.
  - (* size *)
    apply footprint_refl.
  - (* has *)
    unfold exec, CacheIt_has. js_unfold.
    destruct (cache (cacheit w) !! key); apply footprint_refl.
  - (* subscribe *)
    unfold exec, CacheIt_subscribe, Symbol, modify_cacheit. js_unfold.
    apply (footprint_intro _ _ _ []); cbn; [lia| |by apply slots_same| |].
    + intros sym [? | ->]%elem_of_Map_set; [by left | right; lia].
    + by rewrite app_nil_r.
    + by intros e sym ?%elem_of_nil.
  - (* the closure of a cache subscription *)
    unfold exec, CacheSubscription_unsubscribe, modify_cacheit. js_unfold.
    apply (footprint_intro _ _ _ []); cbn; [lia| |by apply slots_same| |].
    + intros sym [? _]%elem_of_Map_delete. by left.
    + by rewrite app_nil_r.
    + by intros e sym ?%elem_of_nil.
  - (* unsubscribeAll *)
    unfold exec, CacheIt_unsubscribeAll, modify_cacheit. js_unfold.
    apply (footprint_intro _ _ _ []); cbn; [lia| |by apply slots_same| |].
    + by intros sym ?%elem_of_nil.
    + by rewrite app_nil_r.
    + by intros e sym ?%elem_of_nil.
  - (* new CacheValue *)
    unfold exec. rewrite CacheValue_constructor_eq.
    apply (footprint_intro _ _ _ []); cbn; [lia|by left| | |].
    + by eapply slots_created.
    + by rewrite app_nil_r.
    + by intros e sym ?%elem_of_nil.
  - (* update *)
    by apply update_footprint.
  - (* unwrapCurrent *)
    unfold exec. destruct (slots w !! this) as [cv|] eqn:Hcv.
    + rewrite (CacheValue_unwrapCurrent_eq _ _ _ _ Hcv). apply unwrapped_footprint.
    + rewrite (CacheValue_unwrapCurrent_missing _ _ _ Hcv). apply footprint_refl.
  - (* unwrapPrevious *)
    unfold exec. destruct (slots w !! this) as [cv|] eqn:Hcv.
    + rewrite (CacheValue_unwrapPrevious_eq _ _ _ _ Hcv). apply unwrapped_footprint.
    + rewrite (CacheValue_unwrapPrevious_missing _ _ _ Hcv). apply footprint_refl.
  - (* clear *)
    unfold exec. destruct (slots w !! this) as [cv|] eqn:Hcv.
    + rewrite (CacheValue_clear_eq _ _ _ Hcv).
      eapply footprint_intro; cbn; [lia|by left| |done|].
      * eapply (slots_written _ _ _ this cv); cbn; [done..|]. by left.
      * intros e sym He Hsym. left.
        by eapply (slot_pass_registered next (λ s c, Next s c this)).
    + rewrite (CacheValue_clear_missing _ _ Hcv). apply footprint_refl.
  - (* subscribe *)
    unfold exec. destruct (slots w !! this) as [cv|] eqn:Hcv.
    + rewrite (CacheValue_subscribe_eq _ _ _ _ Hcv).
      apply (footprint_intro _ _ _ []); cbn; [lia|by left| | |].
      * eapply (slots_written _ _ _ this cv); cbn; [done..|].
        intros sym [? | ->]%elem_of_Map_set; [by left | right; lia].
      * by rewrite app_nil_r.
      * by intros e sym ?%elem_of_nil.
    + rewrite (CacheValue_subscribe_missing _ _ _ Hcv). apply footprint_refl.
  - (* the closure of a slot subscription *)
    unfold exec. rewrite CacheValueSubscription_unsubscribe_eq.
    assert (Hev : ∀ e sym,
              e ∈ call_events (complete (sub_handlers sub)) (Complete (sub_symbol sub)) →
              event_symbol e = Some sym → sym = sub_symbol sub).
    { intros e sym He Hsym. destruct (complete (sub_handlers sub)); cbn in He.
      - apply list_elem_of_singleton in He as ->. by injection Hsym as <-.
      - by apply elem_of_nil in He. }
    destruct (call_outcome _) as [[]|err].
    + eapply footprint_intro; cbn; [lia|by left| |done|].
      * destruct (slots w !! sub_this sub) as [cv|] eqn:Hcv.
        -- eapply (slots_written _ _ _ (sub_this sub) cv); cbn; [done..| |].
           ++ by apply list_alter_lookup.
           ++ intros sym [? _]%elem_of_Map_delete. by left.
        -- apply slots_same. cbn. by apply list_alter_missing.
      * intros e sym He Hsym. right. f_equal. symmetry. by eapply Hev.
    + eapply footprint_intro; cbn; [lia|by left|by apply slots_same|done|].
      intros e sym He Hsym. right. f_equal. symmetry. by eapply Hev.
  - (* unsubscribeAll *)
    unfold exec. destruct (slots w !! this) as [cv|] eqn:Hcv.
    + rewrite (CacheValue_unsubscribeAll_eq _ _ _ Hcv).
      destruct (pass_outcome _ _) as [[]|err].
      * eapply footprint_intro; cbn; [lia|by left| |done|].
        -- eapply (slots_written _ _ _ this cv); cbn; [done..|].
           by intros sym ?%elem_of_nil.
        -- intros e sym He Hsym. left.
           by eapply (slot_pass_registered complete Complete).
      * eapply footprint_intro; cbn; [lia|by left|by apply slots_same|done|].
        intros e sym He Hsym. left.
        by eapply (slot_pass_registered complete Complete).
    + rewrite (CacheValue_unsubscribeAll_missing _ _ Hcv). apply footprint_refl.
  - (* a timer runs *)
    unfold exec. destruct (timers w !! i) as [t|] eqn:Ht.
    + rewrite (fire_eq _ _ _ Ht).
      pose proof (update_footprint (Slot_update (timer_this t) undefined)
                    (timer_this t) undefined
                    (set_timers (delete i (timers w)) w) eq_refl eq_refl) as Hf.
      unfold footprint in *. cbn in *. rewrite Ht. exact Hf.
    + rewrite (fire_missing _ _ Ht). apply footprint_refl.
  - (* the caller writes to an object *)
    unfold exec, write_object. js_unfold.
    apply (footprint_intro _ _ _ []); cbn; [lia|by left|by apply slots_same| |].
    + by rewrite app_nil_r.
    + by intros e sym ?%elem_of_nil.
Qed.

(** ** Invariants of runs *)

Lemma symbols_fresh_initial : symbols_fresh initial.
Proof.
  intros [s|] sym; cbn.
  - by intros (cv & [=] & _).
  - by intros ?%elem_of_nil.
Qed.

Lemma symbols_fresh_perform c w : symbols_fresh w → symbols_fresh (perform c w).
Proof.
  intros Hfresh place sym Hreg.
  destruct (perform_footprint c w) as (Hle & _ & Hregs & _).
  destruct (Hregs place sym Hreg) as [Hold|[_ Hnew]]; [|done].
  specialize (Hfresh place sym Hold). lia.
Qed.

Lemma symbols_fresh_run cs w : symbols_fresh w → symbols_fresh (run cs w).
Proof.
  revert w. induction cs as [|c rest IH]; intros w Hfresh; cbn; [done|].
  by apply IH, symbols_fresh_perform.
Qed.




(** ** Subscribing and cancelling *)









(** ** Calls on one slot *)

Lemma on_slot_subject this base c w :
  on_slot this base c w = true →
  subject c w = Some this ∧ ∀ sym, unsubscribes c = Some sym → base ≤ sym.
Proof.
  destruct c; cbn; try done;
    try (intros ->%bool_decide_eq_true; by split).
  - intros [->%bool_decide_eq_true Hb%bool_decide_eq_true]%andb_true_iff.
    split; [done|]. by intros sym [= <-].
  - destruct (timers w !! i) as [t|]; [|done].
    intros <-%bool_decide_eq_true. by split.
Qed.

(** Calls on one slot leave every other slot alone, and the callbacks they
    make are for symbols registered on that slot. *)
Lemma run_on_slot other cv this base cs w :
  other ≠ this →
  slots w !! other = Some cv →
  base ≤ symbols w →
  (∀ sym, registered_at w (Some this) sym → base ≤ sym) →
  all_on_slot this base cs w = true →
  slots (run cs w) !! other = Some cv ∧
  ∃ calls, trace (run cs w) = trace w ++ calls ∧
           ∀ e sym, e ∈ calls → event_symbol e = Some sym → base ≤ sym.
Proof.
  revert w. induction cs as [|c rest IH]; intros w Hne Hcv Hbase Hregs Hall; cbn.
  { split; [done|]. exists []. split; [by rewrite app_nil_r|].
    by intros e sym ?%elem_of_nil. }
  cbn in Hall. apply andb_true_iff in Hall as [Hc Hrest].
  destruct (on_slot_subject _ _ _ _ Hc) as [Hsubj Hunsub].
  destruct (perform_footprint c w) as (Hle & _ & Hreg' & Hframe & calls & Htr & Hcalls).
  destruct (IH (perform c w)) as (Hcv' & calls' & Htr' & Hcalls'); [done| |lia| |done|].
  { rewrite Hframe; [done| |by eapply lookup_lt_Some].
    rewrite Hsubj. by intros [= ->]. }
  { intros sym Hreg. destruct (Hreg' (Some this) sym Hreg) as [Hold|[Hnew _]];
      [by apply Hregs | lia]. }
  split; [done|]. exists (calls ++ calls'). split; [by rewrite Htr', Htr, app_assoc|].
  intros e sym [He|He]%elem_of_app Hsym; [|by eapply Hcalls'].
  destruct (Hcalls e sym He Hsym) as [Hreg|Hun].
  - rewrite Hsubj in Hreg. by apply Hregs.
  - by apply Hunsub.
Qed.

(** * The claims *)

(** ** C1: isolation of stored values *)

Lemma write_object_eq l o w :
  write_object l o w = (Normal (), set_heap (<[l := o]> (heap w)) w).
Proof. done. Qed.

(** The half of C1 that holds: what is stored of a plain object is a copy,
    so a caller that changes the object it passed to [update] does not
    change what the slot reads as. *)
Lemma stored_copy_is_isolated_from_the_original (w : World) (this : ref)
    (cv : CacheValue) (l : loc) (o : object) :
  slots w !! this = Some cv →
  l < length (heap w) →
  callable (deref (heap w) l) = false →
  let w1 := exec (CacheValue_update this (Ref l)) w in
  let w2 := exec (write_object l o) w1 in
  ∃ r, result (CacheValue_unwrapCurrent this None) w2 = Normal r ∧
       observe (heap w2) r = observe (heap w) (Ref l).
Proof.
  intros Hcv Hl Hplain w1 w2.
  assert (Hw1 : w1 = (CacheValue_update this (Ref l) w).2) by done.
  rewrite (CacheValue_update_eq _ _ _ _ Hcv) in Hw1. cbn in Hw1.
  set (h1 := isolated_heap (heap w) (current (value cv))) in *.
  destruct (isolated_heap_grows (heap w) (current (value cv))) as [ext Hext].
  fold h1 in Hext.
  assert (Hl1 : l < length h1) by (rewrite Hext, length_app; lia).
  assert (Hplain1 : callable (deref h1 l) = false).
  { by rewrite Hext, deref_grow. }
  rewrite Hplain1 in Hw1.
  exists (Ref (length h1)). split.
  - eapply (unwrapCurrent_result _ {| value := {| current := Ref (length h1) |} |}).
    subst w2. unfold exec. rewrite write_object_eq, Hw1. cbn.
    apply list_lookup_insert_eq. by eapply lookup_lt_Some.
  - subst w2. unfold exec. rewrite write_object_eq, Hw1. cbn. f_equal.
    unfold deref. rewrite list_lookup_insert_ne by lia.
    rewrite list_lookup_middle by done. cbn.
    rewrite Hext, lookup_app_l by done. done.
Qed.

(** The half that fails: [unwrapCurrent()] returns the stored reference
    itself, so writing through it rewrites the slot's state. *)
Lemma unwrapCurrent_returns_the_stored_reference (w : World) (this : ref)
    (cv : CacheValue) (l : loc) (o : object) :
  slots w !! this = Some cv →
  current (value cv) = Ref l →
  l < length (heap w) →
  let w' := exec (write_object l o) w in
  result (CacheValue_unwrapCurrent this None) w = Normal (Ref l) ∧
  slots w' = slots w ∧
  result (CacheValue_unwrapCurrent this None) w' = Normal (Ref l) ∧
  observe (heap w') (Ref l) = Node o.
Proof.
  intros Hcv Hcur Hl w'. split_and!.
  - by rewrite (unwrapCurrent_result _ _ _ Hcv), Hcur.
  - done.
  - assert (Hcv' : slots w' !! this = Some cv) by done.
    by rewrite (unwrapCurrent_result _ _ _ Hcv'), Hcur.
  - cbn. unfold deref. by rewrite list_lookup_insert_eq.
Qed.

(** C1 at the failing input: an object is stored with [set]; the slot
    holds a copy at a new address, and [unwrapCurrent()] returns, and
    [onPresent] receives, the address of that very copy.  A caller that
    assigns to the returned object changes what the slot holds: the slot's
    fields are the same, but the next [unwrapCurrent()] reads the changed
    contents. *)
Theorem unwrapCurrent_exposes_the_stored_object :
  let w := record_stored in
  let w' := exec (write_object 1 changed_record) w in
  (current ∘ value <$> slots w !! 0) = Some (Ref 1) ∧
  result (CacheValue_unwrapCurrent 0 None) w = Normal (Ref 1) ∧
  trace (exec (CacheValue_unwrapCurrent 0 (Some both_handlers)) w)
    = [Present 1 (Ref 1)] ∧
  observe (heap w) (Ref 1) = Node a_record ∧
  slots w' = slots w ∧
  result (CacheValue_unwrapCurrent 0 None) w' = Normal (Ref 1) ∧
  observe (heap w') (Ref 1) = Node changed_record.
Proof. vm_compute. by repeat split. Qed.

(** ** C2: presence in the handler form of the unwrap methods *)

(** The handler form tests the stored value for truthiness. *)
Lemma unwrapCurrent_handlers_trace this h cv w :
  slots w !! this = Some cv →
  trace (exec (CacheValue_unwrapCurrent this (Some h)) w)
  = trace w ++ (if truthy (current (value cv))
                then call_events (onPresent h) (λ cb, Present cb (current (value cv)))
                else call_events (onAbsent h) Absent).
Proof.
  intros Hcv. unfold exec. rewrite (CacheValue_unwrapCurrent_eq _ _ _ _ Hcv).
  cbn. unfold unwrap_call, unwrap_event. by destruct (truthy _).
Qed.

Lemma unwrapPrevious_handlers_trace this h cv w :
  slots w !! this = Some cv →
  trace (exec (CacheValue_unwrapPrevious this (Some h)) w)
  = trace w ++ (if truthy (previous (value cv))
                then call_events (onPresent h) (λ cb, Present cb (previous (value cv)))
                else call_events (onAbsent h) Absent).
Proof.
  intros Hcv. unfold exec. rewrite (CacheValue_unwrapPrevious_eq _ _ _ _ Hcv).
  cbn. unfold unwrap_call, unwrap_event. by destruct (truthy _).
Qed.

(** C2 at the failing inputs: a slot whose current value is the number
    zero, the empty string or [false] holds a defined value (the plain
    [unwrapCurrent()] returns it), yet the handler form calls [onAbsent]
    and not [onPresent]; the same happens to a zero that has moved to
    previous. *)
Theorem falsy_values_are_reported_absent :
  let stored v := exec (CacheIt_set "k" v None) initial in
  let handled v :=
    trace (exec (CacheValue_unwrapCurrent 0 (Some both_handlers)) (stored v)) in
  let w2 := exec (CacheValue_update 0 (Prim (PNum 7))) (stored (Prim (PNum 0))) in
  result (CacheValue_unwrapCurrent 0 None) (stored (Prim (PNum 0))) = Normal (Prim (PNum 0)) ∧
  handled (Prim (PNum 0)) = [Absent 2] ∧
  handled (Prim (PStr "")) = [Absent 2] ∧
  handled (Prim (PBool false)) = [Absent 2] ∧
  handled (Prim (PNum 7)) = [Present 1 (Prim (PNum 7))] ∧
  result (CacheValue_unwrapPrevious 0 None) w2 = Normal (Prim (PNum 0)) ∧
  trace (exec (CacheValue_unwrapPrevious 0 (Some both_handlers)) w2) = [Absent 2].
Proof. vm_compute. by repeat split. Qed.

(** ** C10: the unwrap methods only read *)

Lemma unwrapped_only_read v handlers w : only_read handlers w (unwrapped v handlers w).2.
Proof.
  unfold only_read, unwrapped. destruct handlers as [h|]; cbn.
  - split_and!; try done. eexists; split; [done|].
    unfold unwrap_call, unwrap_event.
    destruct (truthy v); [destruct (onPresent h) | destruct (onAbsent h)];
      cbn; split; (done || lia).
  - split_and!; try done. exists []. by rewrite app_nil_r.
Qed.

Lemma only_read_refl handlers w : only_read handlers w w.
Proof.
  unfold only_read. split_and!; try done.
  exists []. rewrite app_nil_r. split_and!; [done..|cbn; lia].
Qed.

(** C10: in both call shapes [unwrapCurrent] and [unwrapPrevious] leave the
    slot store (so every slot's current, previous and subscribers), the
    heap, the cache, the timers and the symbol counter as they were; the
    only calls they make are [onPresent] or [onAbsent] of the handler pair,
    at most one, and none in the no-argument form. *)
Theorem unwrap_methods_only_read (w : World) (this : ref)
    (handlers : option UnwrapHandlers) :
  only_read handlers w (exec (CacheValue_unwrapCurrent this handlers) w) ∧
  only_read handlers w (exec (CacheValue_unwrapPrevious this handlers) w).
Proof.
  unfold exec. destruct (slots w !! this) as [cv|] eqn:Hcv.
  - rewrite (CacheValue_unwrapCurrent_eq _ _ _ _ Hcv),
            (CacheValue_unwrapPrevious_eq _ _ _ _ Hcv).
    split; apply unwrapped_only_read.
  - rewrite (CacheValue_unwrapCurrent_missing _ _ _ Hcv),
            (CacheValue_unwrapPrevious_missing _ _ _ Hcv).
    split; apply only_read_refl.
Qed.

(** ** C3: cancelling a subscription *)




(** ** C4: the expiry timer *)

(** C4, as the code has it: a slot constructed with a TTL arms one timer,
    and no write arms or changes a timer; when the timer runs it is spent
    and performs [update(undefined)], not [clear()]: the current value
    becomes absent, the previous value is a copy of what was current when
    the timer ran, and the slot's subscribers are notified with [next]. *)
Theorem expiry_runs_update_undefined (w : World) (ttl : Z) (i : nat)
    (t : timer) (cv : CacheValue) (v : jsval) :
  timers w !! i = Some t →
  slots w !! timer_this t = Some cv →
  let this := timer_this t in
  let w' := exec (fire i) w in
  timers (exec (CacheValue_constructor (Some ttl)) w)
    = timers w ++ [{| timer_this := length (slots w); timer_delay := ttl |}] ∧
  timers (exec (CacheValue_constructor None) w) = timers w ∧
  timers (exec (CacheValue_update this v) w) = timers w ∧
  timers (exec (CacheValue_clear this) w) = timers w ∧
  timers w' = delete i (timers w) ∧
  result (CacheValue_unwrapCurrent this None) w' = Normal undefined ∧
  (∃ p, result (CacheValue_unwrapPrevious this None) w' = Normal p ∧
        observe (heap w') p = observe (heap w) (current (value cv))) ∧
  trace w' = trace w ++ pass_events next (λ sym cb, Next sym cb this) (subscribers cv).
Proof.
  intros Ht Hcv this w'. subst w' this. unfold exec.
  rewrite !CacheValue_constructor_eq, (CacheValue_update_eq _ _ _ _ Hcv),
    (CacheValue_clear_eq _ _ _ Hcv), (fire_eq _ _ _ Ht). cbn.
  rewrite app_nil_r.
  assert (Hcv' : slots (set_timers (delete i (timers w)) w) !! timer_this t = Some cv) by done.
  rewrite (CacheValue_update_eq _ _ _ _ Hcv'). cbn.
  assert (Hlt : timer_this t < length (slots w)) by by eapply lookup_lt_Some.
  split_and!; try done.
  - eapply (unwrapCurrent_result _ {| value := {| current := undefined |} |}).
    cbn. by apply list_lookup_insert_eq.
  - eexists. split.
    + eapply (unwrapPrevious_result _ {| value := {| previous := _ |} |}).
      cbn. by apply list_lookup_insert_eq.
    + cbn. apply observe_isolated.
Qed.

Lemma expiry_runs_update_undefined_witness :
  let w := slot_with_ttl in
  timers w !! 0 = Some {| timer_this := 0; timer_delay := 100 |} ∧
  timers (exec (fire 0) w) = [] ∧
  result (CacheValue_unwrapCurrent 0 None) (exec (fire 0) w) = Normal undefined.
Proof.
  pose proof (expiry_runs_update_undefined slot_with_ttl 5 0
                {| timer_this := 0; timer_delay := 100 |}
                {| value := {| current := Prim (PNum 1); previous := undefined |};
                   subscribers := [] |}
                undefined eq_refl eq_refl) as (_ & _ & _ & _ & Hspent & Hcur & _).
  split; [reflexivity|]. split; [exact Hspent | exact Hcur].
Defined.

(** C4 fails as stated: after the timer has run, [unwrapPrevious()] does
    not return absent; it returns the value the slot held. *)
Lemma previous_survives_expiry :
  let w' := exec (fire 0) slot_with_ttl in
  result (CacheValue_unwrapCurrent 0 None) w' = Normal undefined ∧
  ¬ (result (CacheValue_unwrapPrevious 0 None) w' = Normal undefined).
Proof. vm_compute. split; [done | discriminate]. Qed.

(** ** C5: current and previous *)

(** C5, as the code has it: a new slot holds nothing; [update(a)] moves a
    copy of what was current into previous and a copy of [a] into current,
    so that after [update(a)] then [update(b)] the slot reads [a] as
    previous and [b] as current; [clear()] empties both fields and does not
    keep the value that was current before it. *)
Theorem history_of_a_slot (w : World) (this : ref) (cv : CacheValue)
    (a b : jsval) (ttl : option Z) :
  slots w !! this = Some cv →
  allocated (heap w) a →
  allocated (heap w) b →
  let created := length (slots w) in
  let w0 := exec (CacheValue_constructor ttl) w in
  let w1 := exec (CacheValue_update this a) w in
  let w2 := exec (CacheValue_update this b) w1 in
  let w3 := exec (CacheValue_clear this) w in
  (result (CacheValue_unwrapCurrent created None) w0 = Normal undefined ∧
   result (CacheValue_unwrapPrevious created None) w0 = Normal undefined) ∧
  (∃ p c,
     result (CacheValue_unwrapPrevious this None) w1 = Normal p ∧
     result (CacheValue_unwrapCurrent this None) w1 = Normal c ∧
     observe (heap w1) p = observe (heap w) (current (value cv)) ∧
     observe (heap w1) c = observe (heap w) a) ∧
  (∃ p c,
     result (CacheValue_unwrapPrevious this None) w2 = Normal p ∧
     result (CacheValue_unwrapCurrent this None) w2 = Normal c ∧
     observe (heap w2) p = observe (heap w) a ∧
     observe (heap w2) c = observe (heap w) b) ∧
  (result (CacheValue_unwrapCurrent this None) w3 = Normal undefined ∧
   result (CacheValue_unwrapPrevious this None) w3 = Normal undefined).
Proof.
  intros Hcv Ha Hb created w0 w1 w2 w3.
  destruct (update_history this a cv w Hcv Ha)
    as (cv1 & Hcv1 & _ & Hp1 & Hc1 & Hal1 & ext1 & Hext1).
  fold w1 in Hcv1, Hp1, Hc1, Hal1, Hext1.
  assert (Hb1 : allocated (heap w1) b) by (rewrite Hext1; by apply allocated_grow).
  destruct (update_history this b cv1 w1 Hcv1 Hb1)
    as (cv2 & Hcv2 & _ & Hp2 & Hc2 & _ & _).
  fold w2 in Hcv2, Hp2, Hc2.
  split_and!.
  - apply (unwrapCurrent_result _ empty_slot). subst w0 created. unfold exec.
    rewrite CacheValue_constructor_eq. cbn. by apply list_lookup_middle.
  - apply (unwrapPrevious_result _ empty_slot). subst w0 created. unfold exec.
    rewrite CacheValue_constructor_eq. cbn. by apply list_lookup_middle.
  - exists (previous (value cv1)), (current (value cv1)).
    split_and!; [by apply unwrapPrevious_result | by apply unwrapCurrent_result
                | done | done].
  - exists (previous (value cv2)), (current (value cv2)).
    split_and!; [by apply unwrapPrevious_result | by apply unwrapCurrent_result | | ].
    + by rewrite Hp2, Hc1.
    + rewrite Hc2, Hext1. by apply observe_grow.
  - eapply (unwrapCurrent_result _ {| value := {| current := undefined |} |}).
    subst w3. unfold exec. rewrite (CacheValue_clear_eq _ _ _ Hcv). cbn.
    apply list_lookup_insert_eq. by eapply lookup_lt_Some.
  - eapply (unwrapPrevious_result _ {| value := {| previous := undefined |} |}).
    subst w3. unfold exec. rewrite (CacheValue_clear_eq _ _ _ Hcv). cbn.
    apply list_lookup_insert_eq. by eapply lookup_lt_Some.
Qed.

Lemma history_of_a_slot_witness :
  let w := slot_holding_one in
  let w2 := exec (CacheValue_update 0 (Prim (PNum 3)))
              (exec (CacheValue_update 0 (Prim (PNum 2))) w) in
  ∃ p c,
    result (CacheValue_unwrapPrevious 0 None) w2 = Normal p ∧
    result (CacheValue_unwrapCurrent 0 None) w2 = Normal c ∧
    observe (heap w2) p = observe (heap w) (Prim (PNum 2)) ∧
    observe (heap w2) c = observe (heap w) (Prim (PNum 3)).
Proof.
  refine (proj1 (proj2 (proj2
            (history_of_a_slot slot_holding_one 0
               {| value := {| current := Prim (PNum 1); previous := undefined |};
                  subscribers := [] |}
               (Prim (PNum 2)) (Prim (PNum 3)) None _ _ _)))).
  - reflexivity.
  - exact I.
  - exact I.
Defined.

(** C5 fails as stated: after [clear()] the previous value is not the value
    that was current immediately before the clear. *)
Lemma previous_after_clear_is_not_the_old_current :
  let w := slot_holding_one in
  ¬ (result (CacheValue_unwrapPrevious 0 None) (exec (CacheValue_clear 0) w)
     = result (CacheValue_unwrapCurrent 0 None) w).
Proof. vm_compute. discriminate. Qed.

(** ** C6: a handler that throws *)




(** ** C7: one cache notification per mutating call *)

(** C7, amended: a subscriber of the cache is reached by a notification
    pass when every handler registered before it returns.  For such a
    subscriber, [N] consecutive calls that are each a [set], a [clear] or a
    [delete] of a key that is present call its handler exactly [N] times;
    for a subscriber registered after a handler that throws, they call it
    never.  In general the calls that count are those that change the
    cache.  A [delete] of an absent key returns [false] and changes
    nothing, so it notifies nobody; [clear] notifies once whatever the map
    holds, also when it is empty. *)
Theorem one_notification_per_reached_subscriber (w : World) (ms : list mutation)
    (pre post : list (symbol * callback)) (sym : symbol) (h : callback) :
  cache_subscribers (cacheit w) = pre ++ (sym, h) :: post →
  NoDup (cache_subscribers (cacheit w)).*1 →
  let reached := if quiet Some pre then 1 else 0 in
  notifications sym (trace (mutations ms w))
    = notifications sym (trace w) + changing ms w * reached ∧
  (all_change ms w = true →
   notifications sym (trace (mutations ms w))
     = notifications sym (trace w) + length ms * reached) ∧
  (∀ key, cache (cacheit w) !! key = None →
          CacheIt_delete key w = (Normal false, w)) ∧
  notifications sym (trace (exec CacheIt_clear w))
    = notifications sym (trace w) + reached.
Proof.
  intros Hsubs Hmap reached.
  pose proof (notifications_mutations sym h pre post) as Hcount.
  split_and!.
  - by apply Hcount.
  - intros Hms. rewrite (Hcount ms w) by done. by rewrite all_change_changing.
  - intros key Hkey. rewrite CacheIt_delete_eq, bool_decide_false; [done|].
    rewrite Hkey. by intros [? [=]].
  - specialize (Hcount [CallClear] w Hsubs Hmap). cbn in Hcount.
    rewrite Hcount. subst reached. lia.
Qed.

Lemma one_notification_per_reached_subscriber_witness :
  let ms := [CallSet "a" (Prim (PNum 1)) None; CallSet "b" (Prim (PNum 2)) None;
             CallDelete "a"; CallClear; CallClear] in
  cache_subscribers (cacheit throwing_last)
    = [(0, Callback 1 false); (1, Callback 2 true)] ∧
  all_change ms throwing_last = true ∧
  notifications 1 (trace (mutations ms throwing_last)) = 5 ∧
  CacheIt_delete "zz" throwing_last = (Normal false, throwing_last) ∧
  notifications 1 (trace (exec CacheIt_clear throwing_last)) = 1.
Proof.
  assert (Hmap : NoDup (cache_subscribers (cacheit throwing_last)).*1).
  { apply (bool_decide_unpack _). reflexivity. }
  pose proof (one_notification_per_reached_subscriber throwing_last
                [CallSet "a" (Prim (PNum 1)) None; CallSet "b" (Prim (PNum 2)) None;
                 CallDelete "a"; CallClear; CallClear]
                [(0, Callback 1 false)] [] 1 (Callback 2 true) eq_refl Hmap)
    as (_ & Hcount & Hdelete & Hclear).
  split; [reflexivity|]. split; [reflexivity|].
  split; [exact (Hcount eq_refl)|].
  split; [exact (Hdelete "zz" eq_refl) | exact Hclear].
Defined.

(** C7 fails as stated: a cache with two subscribers, the first of whose
    handlers throws.  Two mutating calls call the first handler twice and
    the second never. *)
Lemma subscriber_behind_a_throwing_handler_is_not_notified :
  let ms := [CallSet "a" (Prim (PNum 1)) None; CallClear] in
  cache_subscribers (cacheit throwing_first)
    = [(0, Callback 1 true); (1, Callback 2 false)] ∧
  all_change ms throwing_first = true ∧
  notifications 0 (trace (mutations ms throwing_first)) = 2 ∧
  notifications 1 (trace (mutations ms throwing_first)) = 0 ∧
  notifications 1 (trace (mutations ms throwing_first))
    ≠ notifications 1 (trace throwing_first) + length ms.
Proof. vm_compute. split_and!; done. Qed.

(** ** C8: [set] on a key that is taken *)

(** C8: let the cache hold the slot [s1] under [key], in a world whose
    symbols are fresh.  [set(key, ...)] creates a new slot [s2], different
    from [s1], with no subscribers, stores it under [key] and returns it;
    [s1] keeps its value and its subscribers, and the only callbacks made
    are the cache handlers (no [complete]).  Whatever is then done on [s2]
    (its methods, subscriptions made on it, its timer), [s1] stays as it is
    and no callback is made for a subscriber of [s1]. *)
Theorem set_replaces_the_slot (w : World) (key : string) (v : jsval)
    (ttl : option Z) (s1 : ref) (cv1 : CacheValue) (later : list call) :
  symbols_fresh w →
  cache (cacheit w) !! key = Some s1 →
  slots w !! s1 = Some cv1 →
  let s2 := length (slots w) in
  let w' := exec (CacheIt_set key v ttl) w in
  let w'' := run later w' in
  all_on_slot s2 (symbols w) later w' = true →
  s2 ≠ s1 ∧
  result (CacheIt_set key v ttl) w
    = returning (pass_outcome Some (cache_subscribers (cacheit w))) s2 ∧
  cache (cacheit w') !! key = Some s2 ∧
  slots w' !! s2 = Some {| value := {| current := isolated (heap w) v;
                                       previous := undefined |};
                           subscribers := [] |} ∧
  slots w' !! s1 = Some cv1 ∧
  trace w' = trace w ++ pass_events Some CacheChanged (cache_subscribers (cacheit w)) ∧
  slots w'' !! s1 = Some cv1 ∧
  ∃ calls, trace w'' = trace w' ++ calls ∧
           ∀ e sym, e ∈ calls → sym ∈ (subscribers cv1).*1 → event_symbol e ≠ Some sym.
Proof.
  intros Hfresh Hkey Hcv1 s2 w' w'' Hlater.
  assert (Hlt : s1 < s2) by by eapply lookup_lt_Some.
  assert (Hw' : w' = (CacheIt_set key v ttl w).2) by done.
  rewrite CacheIt_set_eq in Hw'. cbn in Hw'.
  assert (Hs1 : slots w' !! s1 = Some cv1).
  { rewrite Hw'. cbn. by rewrite lookup_app_l. }
  assert (Hs2 : slots w' !! s2
                = Some {| value := {| current := isolated (heap w) v;
                                      previous := undefined |};
                          subscribers := [] |}).
  { rewrite Hw'. cbn. by apply list_lookup_middle. }
  destruct (run_on_slot s1 cv1 s2 (symbols w) later w')
    as (Hs1'' & calls & Htr & Hcalls); [lia|done|by rewrite Hw'| |done|].
  { intros sym (cv2 & Hcv2 & Hin).
    pose proof (eq_trans (eq_sym Hcv2) Hs2) as [= ->].
    by apply elem_of_nil in Hin. }
  split_and!; [lia| |by rewrite Hw'; cbn; apply lookup_insert_eq|done|done
              |by rewrite Hw'|done|].
  - unfold result. by rewrite CacheIt_set_eq.
  - exists calls. split; [done|]. intros e sym He Hin Hsym.
    pose proof (Hcalls e sym He Hsym).
    assert (sym < symbols w); [|lia].
    apply (Hfresh (Some s1)). by exists cv1.
Qed.

Lemma set_replaces_the_slot_witness :
  let w := subscribed_slot in
  let later := [Slot_subscribe 1 completing; Slot_update 1 (Prim (PNum 5));
                Slot_clear 1; Slot_unsubscribeAll 1] in
  let w' := exec (CacheIt_set "k" (Prim (PNum 2)) (Some 10%Z)) w in
  cache (cacheit w) !! "k" = Some 0 ∧
  all_on_slot 1 (symbols w) later w' = true ∧
  cache (cacheit w') !! "k" = Some 1 ∧
  slots (run later w') !! 0
    = Some {| value := {| current := Prim (PNum 1); previous := undefined |};
              subscribers := [(0, completing)] |} ∧
  ∃ calls, trace (run later w') = trace w' ++ calls ∧
           ∀ e sym, e ∈ calls → sym ∈ [(0, completing)].*1 → event_symbol e ≠ Some sym.
Proof.
  assert (Hfresh : symbols_fresh subscribed_slot).
  { apply (symbols_fresh_run [Cache_set "k" (Prim (PNum 1)) None;
                              Slot_subscribe 0 completing] initial).
    apply symbols_fresh_initial. }
  pose proof (set_replaces_the_slot subscribed_slot "k" (Prim (PNum 2)) (Some 10%Z) 0
                {| value := {| current := Prim (PNum 1); previous := undefined |};
                   subscribers := [(0, completing)] |}
                [Slot_subscribe 1 completing; Slot_update 1 (Prim (PNum 5));
                 Slot_clear 1; Slot_unsubscribeAll 1]
                Hfresh eq_refl eq_refl eq_refl)
    as (_ & _ & Hkey & _ & _ & _ & Hkept & Hquiet).
  split; [reflexivity|]. split; [reflexivity|]. split; [exact Hkey|].
  split; [exact Hkept | exact Hquiet].
Defined.

(** ** C9: removing an entry does not tear its slot down *)

(** C9: [delete(key)] and [clear()] take the entry out of the map and call
    the cache handlers, nothing else: the pending timers and every slot,
    with its subscribers, are as before, and no [complete] is called.  When
    the timer of the removed slot runs later it updates that slot to
    [undefined] and notifies the subscribers it still has. *)
Theorem removal_leaves_timer_and_subscribers (w : World) (key : string)
    (this : ref) (cv : CacheValue) (i : nat) (t : timer) (w' : World) :
  cache (cacheit w) !! key = Some this →
  slots w !! this = Some cv →
  timers w !! i = Some t →
  timer_this t = this →
  w' = exec (CacheIt_delete key) w ∨ w' = exec CacheIt_clear w →
  let w'' := exec (fire i) w' in
  cache (cacheit w') !! key = None ∧
  timers w' = timers w ∧
  slots w' = slots w ∧
  trace w' = trace w ++ pass_events Some CacheChanged (cache_subscribers (cacheit w)) ∧
  timers w'' = delete i (timers w) ∧
  slots w'' !! this
    = Some {| value := {| current := undefined;
                          previous := isolated (heap w) (current (value cv)) |};
              subscribers := subscribers cv |} ∧
  trace w'' = trace w' ++ pass_events next (λ s c, Next s c this) (subscribers cv).
Proof.
  intros Hkey Hcv Ht <- Hw'.
  assert (Hfacts : cache (cacheit w') !! key = None ∧ timers w' = timers w ∧
            slots w' = slots w ∧ heap w' = heap w ∧
            trace w' = trace w ++ pass_events Some CacheChanged
                                              (cache_subscribers (cacheit w))).
  { destruct Hw' as [-> | ->]; unfold exec.
    - rewrite CacheIt_delete_eq, bool_decide_true by by eexists.
      cbn. split_and!; try done. apply lookup_delete_eq.
    - rewrite CacheIt_clear_eq. cbn. split_and!; try done. }
  destruct Hfacts as (Hk' & Hts & Hss & Hh & Htr).
  cbn. split_and!; try done; unfold exec.
  - rewrite (fire_eq i t) by by rewrite Hts.
    rewrite (CacheValue_update_eq _ _ cv) by (cbn; by rewrite Hss).
    cbn. by rewrite Hts.
  - rewrite (fire_eq i t) by by rewrite Hts.
    rewrite (CacheValue_update_eq _ _ cv) by (cbn; by rewrite Hss).
    cbn. rewrite Hss, Hh. apply list_lookup_insert_eq. by eapply lookup_lt_Some.
  - rewrite (fire_eq i t) by by rewrite Hts.
    rewrite (CacheValue_update_eq _ _ cv) by (cbn; by rewrite Hss).
    done.
Qed.

Lemma removal_leaves_timer_and_subscribers_witness :
  let w' := exec (CacheIt_delete "k") slot_with_ttl in
  cache (cacheit slot_with_ttl) !! "k" = Some 0 ∧
  cache (cacheit w') !! "k" = None ∧
  timers w' = timers slot_with_ttl ∧
  slots (exec (fire 0) w') !! 0
    = Some {| value := {| current := undefined; previous := Prim (PNum 1) |};
              subscribers := [] |}.
Proof.
  pose proof (removal_leaves_timer_and_subscribers slot_with_ttl "k" 0
                {| value := {| current := Prim (PNum 1); previous := undefined |};
                   subscribers := [] |}
                0 {| timer_this := 0; timer_delay := 100 |}
                (exec (CacheIt_delete "k") slot_with_ttl)
                eq_refl eq_refl eq_refl eq_refl (or_introl eq_refl))
    as (Hgone & Htimers & _ & _ & _ & Hslot & _).
  split; [reflexivity|]. split; [exact Hgone|]. split; [exact Htimers | exact Hslot].
Defined.

(** * Further properties *)

(** ** Reading the cache *)

Lemma CacheIt_get_eq key w :
  CacheIt_get key w = (Normal (cache (cacheit w) !! key), w).
Proof.
  unfold CacheIt_get. js_unfold. by destruct (cache (cacheit w) !! key).
Qed.

Lemma CacheIt_has_eq key w :
  CacheIt_has key w = (Normal (bool_decide (is_Some (cache (cacheit w) !! key))), w).
Proof.
  unfold CacheIt_has. js_unfold. destruct (cache (cacheit w) !! key) eqn:Hk.
  - by rewrite bool_decide_true.
  - rewrite bool_decide_false; [done|]. by intros [? [=]].
Qed.

Lemma CacheIt_size_eq w : CacheIt_size w = (Normal (size (cache (cacheit w))), w).
Proof. done. Qed.

(** X1: after [set(key, v, ttl)], whether or not a cache handler threw,
    [get(key)] returns the slot created by the call, [has(key)] is true,
    the slot reads [v] as current and nothing as previous, and [get] and
    [has] answer for every other key as before. *)
Theorem set_then_get (w : World) (key other : string) (v : jsval) (ttl : option Z) :
  other ≠ key →
  let s := length (slots w) in
  let w' := exec (CacheIt_set key v ttl) w in
  result (CacheIt_get key) w' = Normal (Some s) ∧
  result (CacheIt_has key) w' = Normal true ∧
  (∃ c, result (CacheValue_unwrapCurrent s None) w' = Normal c ∧
        observe (heap w') c = observe (heap w) v) ∧
  result (CacheValue_unwrapPrevious s None) w' = Normal undefined ∧
  result (CacheIt_get other) w' = result (CacheIt_get other) w ∧
  result (CacheIt_has other) w' = result (CacheIt_has other) w.
Proof.
  intros Hne s w'.
  assert (Hw' : w' = (CacheIt_set key v ttl w).2) by done.
  rewrite CacheIt_set_eq in Hw'. cbn in Hw'.
  assert (Hkey : cache (cacheit w') !! key = Some (s : ref)).
  { rewrite Hw'. cbn. apply lookup_insert_eq. }
  assert (Hother : cache (cacheit w') !! other = cache (cacheit w) !! other).
  { rewrite Hw'. cbn. by apply lookup_insert_ne. }
  assert (Hs : slots w' !! s
               = Some {| value := {| current := isolated (heap w) v;
                                     previous := undefined |};
                         subscribers := [] |}).
  { rewrite Hw'. cbn. by apply list_lookup_middle. }
  unfold result. rewrite !CacheIt_get_eq, !CacheIt_has_eq, Hkey, Hother. cbn.
  split_and!; try done.
  - exists (isolated (heap w) v). split.
    + by rewrite (CacheValue_unwrapCurrent_eq _ _ _ _ Hs).
    + rewrite Hw'. cbn. apply observe_isolated.
  - by rewrite (CacheValue_unwrapPrevious_eq _ _ _ _ Hs).
Qed.

Lemma set_then_get_witness :
  let w' := exec (CacheIt_set "b" (Prim (PNum 2)) None) slot_holding_one in
  result (CacheIt_get "b") w' = Normal (Some 1) ∧
  result (CacheIt_get "k") w' = result (CacheIt_get "k") slot_holding_one.
Proof.
  pose proof (set_then_get slot_holding_one "b" "k" (Prim (PNum 2)) None
                ltac:(discriminate)) as (Hget & _ & _ & _ & Hother & _).
  split; [exact Hget | exact Hother].
Defined.

(** X2: [size()] is the number of keys: a new cache has none, [set] adds
    one unless the key was present, [delete] takes one away if the key was
    present, and [clear] leaves none. *)
Theorem size_counts_the_keys (w : World) (key : string) (v : jsval)
    (ttl : option Z) :
  let n := size (cache (cacheit w)) in
  let present := bool_decide (is_Some (cache (cacheit w) !! key)) in
  result CacheIt_size initial = Normal 0 ∧
  result CacheIt_size w = Normal n ∧
  result (CacheIt_has key) w = Normal present ∧
  result CacheIt_size (exec (CacheIt_set key v ttl) w)
    = Normal (if present then n else S n) ∧
  result CacheIt_size (exec (CacheIt_delete key) w)
    = Normal (if present then pred n else n) ∧
  result CacheIt_size (exec CacheIt_clear w) = Normal 0.
Proof.
  intros n present. unfold result, exec.
  rewrite !CacheIt_size_eq, CacheIt_has_eq, CacheIt_set_eq, CacheIt_delete_eq,
    CacheIt_clear_eq.
  cbn. split_and!; try done.
  - rewrite map_size_insert. subst present n.
    destruct (cache (cacheit w) !! key) eqn:Hk.
    + by rewrite bool_decide_true.
    + rewrite bool_decide_false; [done|]. by intros [? [=]].
  - subst present n. case_bool_decide as Hk; cbn; [|done].
    by rewrite map_size_delete_Some.
Qed.

(** X3: [delete(key)] returns [false] for an absent key and otherwise
    [true], unless a handler throws.  Afterwards the key is absent,
    whatever the other keys hold is as before, and a second [delete(key)]
    returns [false] and changes nothing. *)
Theorem delete_removes_one_key (w : World) (key other : string) :
  other ≠ key →
  let w' := exec (CacheIt_delete key) w in
  result (CacheIt_delete key) w
    = (if bool_decide (is_Some (cache (cacheit w) !! key))
       then returning (pass_outcome Some (cache_subscribers (cacheit w))) true
       else Normal false) ∧
  result (CacheIt_has key) w' = Normal false ∧
  result (CacheIt_get key) w' = Normal None ∧
  result (CacheIt_get other) w' = result (CacheIt_get other) w ∧
  CacheIt_delete key w' = (Normal false, w').
Proof.
  intros Hne w'.
  assert (Hgone : cache (cacheit w') !! key = None).
  { subst w'. unfold exec. rewrite CacheIt_delete_eq. case_bool_decide as Hk; cbn.
    - apply lookup_delete_eq.
    - by apply eq_None_not_Some. }
  assert (Hother : cache (cacheit w') !! other = cache (cacheit w) !! other).
  { subst w'. unfold exec. rewrite CacheIt_delete_eq. case_bool_decide; cbn; [|done].
    by apply lookup_delete_ne. }
  unfold result. rewrite !CacheIt_get_eq, CacheIt_has_eq, Hgone, Hother.
  split_and!; try done.
  - rewrite CacheIt_delete_eq. by case_bool_decide.
  - rewrite (CacheIt_delete_eq key w'), Hgone. done.
Qed.

Lemma delete_removes_one_key_witness :
  let w' := exec (CacheIt_delete "k") slot_holding_one in
  result (CacheIt_delete "k") slot_holding_one = Normal true ∧
  result (CacheIt_has "k") w' = Normal false ∧
  CacheIt_delete "k" w' = (Normal false, w').
Proof.
  pose proof (delete_removes_one_key slot_holding_one "k" "b" ltac:(discriminate))
    as (Hres & Hhas & _ & _ & Hagain).
  split; [exact Hres|]. split; [exact Hhas | exact Hagain].
Defined.

(** X4: after [clear()] no key is present, and the slots and the cache
    subscribers are as before. *)
Theorem clear_removes_every_key (w : World) (key : string) :
  let w' := exec CacheIt_clear w in
  result (CacheIt_has key) w' = Normal false ∧
  result (CacheIt_get key) w' = Normal None ∧
  CacheIt_delete key w' = (Normal false, w') ∧
  slots w' = slots w ∧
  cache_subscribers (cacheit w') = cache_subscribers (cacheit w).
Proof.
  intros w'.
  assert (Hgone : cache (cacheit w') !! key = None).
  { subst w'. unfold exec. rewrite CacheIt_clear_eq. cbn. apply lookup_empty. }
  unfold result. rewrite CacheIt_get_eq, CacheIt_has_eq, CacheIt_delete_eq, Hgone.
  split_and!; try done; subst w'; unfold exec; by rewrite CacheIt_clear_eq.
Qed.

(** ** Case analysis on a call *)

(** Rewrites [perform c w] to the world the call leaves, one goal per way
    the call can go. *)
Ltac call_cases c w :=
  let cv := fresh "cv" in
  let Hcv := fresh "Hcv" in
  let t := fresh "t" in
  let Ht := fresh "Ht" in
  destruct c as [ ?key ?v ?ttl | ?key | ?key | | | ?key | ?handler | ?sub | | ?ttl
                | ?this ?v | ?this ?handlers | ?this ?handlers | ?this
                | ?this ?handlers | ?sub | ?this | ?i | ?l ?o ];
  cbn [perform]; unfold exec;
  [ rewrite CacheIt_set_eq
  | rewrite CacheIt_get_eq
  | rewrite CacheIt_delete_eq; case_bool_decide
  | rewrite CacheIt_clear_eq
  | rewrite CacheIt_size_eq
  | rewrite CacheIt_has_eq
  | unfold CacheIt_subscribe, Symbol, modify_cacheit; js_unfold
  | unfold CacheSubscription_unsubscribe, modify_cacheit; js_unfold
  | unfold CacheIt_unsubscribeAll, modify_cacheit; js_unfold
  | rewrite CacheValue_constructor_eq
  | match goal with |- context [CacheValue_update ?this ?v w] =>
      destruct (slots w !! this) as [cv|] eqn:Hcv;
      [ rewrite (CacheValue_update_eq _ _ _ _ Hcv)
      | rewrite (CacheValue_update_missing _ _ _ Hcv) ] end
  | match goal with |- context [CacheValue_unwrapCurrent ?this ?h w] =>
      destruct (slots w !! this) as [cv|] eqn:Hcv;
      [ rewrite (CacheValue_unwrapCurrent_eq _ _ _ _ Hcv); destruct h
      | rewrite (CacheValue_unwrapCurrent_missing _ _ _ Hcv) ] end
  | match goal with |- context [CacheValue_unwrapPrevious ?this ?h w] =>
      destruct (slots w !! this) as [cv|] eqn:Hcv;
      [ rewrite (CacheValue_unwrapPrevious_eq _ _ _ _ Hcv); destruct h
      | rewrite (CacheValue_unwrapPrevious_missing _ _ _ Hcv) ] end
  | match goal with |- context [CacheValue_clear ?this w] =>
      destruct (slots w !! this) as [cv|] eqn:Hcv;
      [ rewrite (CacheValue_clear_eq _ _ _ Hcv)
      | rewrite (CacheValue_clear_missing _ _ Hcv) ] end
  | match goal with |- context [CacheValue_subscribe ?this ?h w] =>
      destruct (slots w !! this) as [cv|] eqn:Hcv;
      [ rewrite (CacheValue_subscribe_eq _ _ _ _ Hcv)
      | rewrite (CacheValue_subscribe_missing _ _ _ Hcv) ] end
  | rewrite CacheValueSubscription_unsubscribe_eq;
    destruct (call_outcome _) as [[]|?]
  | match goal with |- context [CacheValue_unsubscribeAll ?this w] =>
      destruct (slots w !! this) as [cv|] eqn:Hcv;
      [ rewrite (CacheValue_unsubscribeAll_eq _ _ _ Hcv);
        destruct (pass_outcome _ _) as [[]|?]
      | rewrite (CacheValue_unsubscribeAll_missing _ _ Hcv) ] end
  | match goal with |- context [fire ?i w] =>
      destruct (timers w !! i) as [t|] eqn:Ht;
      [ rewrite (fire_eq _ _ _ Ht);
        destruct (slots w !! timer_this t) as [cv|] eqn:Hcv;
        [ rewrite (CacheValue_update_eq _ _ cv) by exact Hcv
        | rewrite CacheValue_update_missing by exact Hcv ]
      | rewrite (fire_missing _ _ Ht) ] end
  | rewrite write_object_eq ];
  cbn [fst snd heap slots cacheit timers symbols trace set_trace set_timers
       set_cache cache cache_subscribers unwrapped].

(** ** What only the cache calls change *)

Lemma perform_keeps_the_map c w :
  cache_call c = false → cache (cacheit (perform c w)) = cache (cacheit w).
Proof. intros Hc. call_cases c w; done. Qed.

Lemma perform_keeps_the_timers c w :
  timer_call c = false → ∃ extra, timers (perform c w) = timers w ++ extra.
Proof.
  intros Hc. call_cases c w; try done;
    try (exists []; by rewrite app_nil_r); by eexists.
Qed.

(** X5: only [set], [delete] and [clear] change what [get], [has] and
    [size] answer.  No other call does, in particular not the expiry of a
    slot: an expired entry is still found. *)
Theorem only_cache_calls_change_the_map (c : call) (w : World) (key : string) :
  cache_call c = false →
  result (CacheIt_get key) (perform c w) = result (CacheIt_get key) w ∧
  result (CacheIt_has key) (perform c w) = result (CacheIt_has key) w ∧
  result CacheIt_size (perform c w) = result CacheIt_size w.
Proof.
  intros Hc. unfold result.
  rewrite !CacheIt_get_eq, !CacheIt_has_eq, !CacheIt_size_eq. cbn.
  by rewrite perform_keeps_the_map.
Qed.

Lemma only_cache_calls_change_the_map_witness :
  let w' := perform (Timer_fires 0) slot_with_ttl in
  result (CacheValue_unwrapCurrent 0 None) w' = Normal undefined ∧
  result (CacheIt_has "k") w' = result (CacheIt_has "k") slot_with_ttl ∧
  result (CacheIt_has "k") slot_with_ttl = Normal true.
Proof.
  pose proof (only_cache_calls_change_the_map (Timer_fires 0) slot_with_ttl "k"
                eq_refl) as (_ & Hhas & _).
  split; [reflexivity|]. split; [exact Hhas | reflexivity].
Defined.

(** X6: no call cancels a timer.  Whatever is called, short of the
    scheduler running a timer, the timers that were pending are still
    pending, in the same order; [delete], [clear], a replacing [set] and
    [unsubscribeAll] are no exceptions. *)
Theorem timers_are_never_cancelled (cs : list call) (w : World) :
  forallb (λ c, negb (timer_call c)) cs = true →
  timers w `prefix_of` timers (run cs w).
Proof.
  revert w. induction cs as [|c rest IH]; intros w Hcs; cbn; [done|].
  cbn in Hcs. apply andb_true_iff in Hcs as [Hc%negb_true_iff Hrest].
  destruct (perform_keeps_the_timers c w Hc) as [extra Hextra].
  trans (timers (perform c w)); [|by apply IH].
  rewrite Hextra. by apply prefix_app_r.
Qed.

Lemma timers_are_never_cancelled_witness :
  let cs := [Cache_delete "k"; Cache_set "k" (Prim (PNum 2)) None; Cache_clear;
             Slot_unsubscribeAll 0; Slot_clear 0] in
  timers slot_with_ttl = [{| timer_this := 0; timer_delay := 100 |}] ∧
  timers slot_with_ttl `prefix_of` timers (run cs slot_with_ttl).
Proof.
  split; [reflexivity|].
  exact (timers_are_never_cancelled
           [Cache_delete "k"; Cache_set "k" (Prim (PNum 2)) None; Cache_clear;
            Slot_unsubscribeAll 0; Slot_clear 0] slot_with_ttl eq_refl).
Defined.

(** ** Cache subscribers and slot calls *)

Lemma notifications_none sym tr :
  (∀ e, e ∈ tr → notifies sym e = false) → notifications sym tr = 0.
Proof.
  unfold notifications. induction tr as [|e tr IH]; intros Hall; cbn; [done|].
  rewrite (Hall e) by left. apply IH. intros e' He'. apply Hall. by right.
Qed.

Lemma notifications_slot_pass sym sel ev (entries : list (symbol * CacheValueSubscriptionHandlers)) :
  (∀ s c, notifies sym (ev s c) = false) →
  notifications sym (pass_events sel ev entries) = 0.
Proof.
  intros Hev. apply notifications_none.
  by intros e (s & h & cb & _ & _ & ->)%pass_events_registered.
Qed.

Lemma notifications_call sym f ev :
  (∀ c, notifies sym (ev c) = false) → notifications sym (call_events f ev) = 0.
Proof.
  intros Hev. destruct f as [cb|]; cbn; [|done].
  unfold notifications. cbn. by rewrite Hev.
Qed.

Lemma perform_keeps_cache_subscribers_unnotified c w sym :
  cache_call c = false →
  notifications sym (trace (perform c w)) = notifications sym (trace w).
Proof.
  intros Hc.
  call_cases c w; try done;
    rewrite ?notifications_app, ?notifications_slot_pass, ?notifications_call;
    try done; try lia.
  all: intros; unfold unwrap_event; by destruct (truthy _).
Qed.

(** X7: the cache subscribers hear of [set], [delete] and [clear] only.
    Updating or clearing a slot, its expiry, subscribing, unsubscribing
    and reading never call a cache handler. *)
Theorem slot_calls_do_not_notify_the_cache (cs : list call) (w : World)
    (sym : symbol) :
  forallb (λ c, negb (cache_call c)) cs = true →
  notifications sym (trace (run cs w)) = notifications sym (trace w).
Proof.
  revert w. induction cs as [|c rest IH]; intros w Hcs; cbn; [done|].
  cbn in Hcs. apply andb_true_iff in Hcs as [Hc%negb_true_iff Hrest].
  rewrite IH by done. by apply perform_keeps_cache_subscribers_unnotified.
Qed.

Lemma slot_calls_do_not_notify_the_cache_witness :
  let w := exec (CacheIt_set "k" (Prim (PNum 1)) (Some 5%Z)) one_subscriber in
  let cs := [Slot_update 0 (Prim (PNum 2)); Slot_clear 0; Timer_fires 0;
             Slot_unsubscribeAll 0] in
  notifications 0 (trace w) = 1 ∧
  notifications 0 (trace (run cs w)) = notifications 0 (trace w).
Proof.
  split; [reflexivity|].
  exact (slot_calls_do_not_notify_the_cache
           [Slot_update 0 (Prim (PNum 2)); Slot_clear 0; Timer_fires 0;
            Slot_unsubscribeAll 0]
           (exec (CacheIt_set "k" (Prim (PNum 1)) (Some 5%Z)) one_subscriber)
           0 eq_refl).
Defined.

(** ** Handlers that throw, and bulk unsubscription *)



Lemma mutations_without_subscribers ms w :
  cache_subscribers (cacheit w) = [] → trace (mutations ms w) = trace w.
Proof.
  revert w. induction ms as [|m rest IH]; intros w Hnone; cbn; [done|].
  rewrite IH by by rewrite mutate_subscribers.
  rewrite mutate_trace, Hnone. cbn. destruct (changes m w); by rewrite app_nil_r.
Qed.

(** X9: [unsubscribeAll()] of the cache calls nobody, keeps the entries,
    and leaves no subscriber: whatever [set], [delete] and [clear] calls
    follow, no handler is called. *)
Theorem cache_unsubscribeAll_silences_the_cache (w : World) (ms : list mutation) :
  let w' := exec CacheIt_unsubscribeAll w in
  result CacheIt_unsubscribeAll w = Normal () ∧
  trace w' = trace w ∧
  cache (cacheit w') = cache (cacheit w) ∧
  slots w' = slots w ∧
  trace (mutations ms w') = trace w.
Proof.
  intros w'. split_and!; try done.
  by rewrite mutations_without_subscribers.
Qed.

(** X10: [unsubscribeAll()] of a slot calls [complete] of the subscribers
    that have one, in subscription order.  If they all return, the
    registry is emptied and later updates notify nobody; if one throws, the
    call throws and the registry is left as it was, with every subscriber
    still registered. *)
Theorem slot_unsubscribeAll_completes_in_order (w : World) (this : ref)
    (cv : CacheValue) (v : jsval) :
  slots w !! this = Some cv →
  let w' := exec (CacheValue_unsubscribeAll this) w in
  trace w' = trace w ++ pass_events complete Complete (subscribers cv) ∧
  match pass_outcome complete (subscribers cv) with
  | Normal _ =>
      result (CacheValue_unsubscribeAll this) w = Normal () ∧
      slots w' !! this = Some {| value := value cv; subscribers := [] |} ∧
      trace (exec (CacheValue_update this v) w') = trace w' ∧
      trace (exec (CacheValue_clear this) w') = trace w'
  | Thrown e =>
      result (CacheValue_unsubscribeAll this) w = Thrown e ∧
      slots w' = slots w
  end.
Proof.
  intros Hcv w'.
  assert (Hw' : w' = (CacheValue_unsubscribeAll this w).2) by done.
  unfold result. rewrite (CacheValue_unsubscribeAll_eq _ _ _ Hcv) in *.
  destruct (pass_outcome complete (subscribers cv)) as [[]|e]; cbn in Hw'.
  - assert (Hs : slots w' !! this = Some {| value := value cv; subscribers := [] |}).
    { rewrite Hw'. cbn. apply list_lookup_insert_eq. by eapply lookup_lt_Some. }
    split; [by rewrite Hw'|]. split_and!; [done|done| |].
    + unfold exec. rewrite (CacheValue_update_eq _ _ _ _ Hs). cbn.
      by rewrite app_nil_r.
    + unfold exec. rewrite (CacheValue_clear_eq _ _ _ Hs). cbn.
      by rewrite app_nil_r.
  - by rewrite Hw'.
Qed.

Lemma slot_unsubscribeAll_completes_in_order_witness :
  let w' := exec (CacheValue_unsubscribeAll 0) subscribed_slot in
  trace w' = [Complete 0 9] ∧
  slots w' !! 0 = Some {| value := {| current := Prim (PNum 1); previous := undefined |};
                          subscribers := [] |} ∧
  trace (exec (CacheValue_update 0 (Prim (PNum 2))) w') = trace w'.
Proof.
  pose proof (slot_unsubscribeAll_completes_in_order subscribed_slot 0
                {| value := {| current := Prim (PNum 1); previous := undefined |};
                   subscribers := [(0, completing)] |}
                (Prim (PNum 2)) eq_refl) as (Htrace & _ & Hslot & Hquiet & _).
  split; [exact Htrace|]. split; [exact Hslot | exact Hquiet].
Defined.

(** ** New subscribers *)

Lemma Map_set_fresh {H} (k : symbol) (h : H) (m : list (symbol * H)) :
  k ∉ m.*1 → Map_set k h m = m ++ [(k, h)].
Proof.
  induction m as [|[k' h'] rest IH]; [done|].
  rewrite fmap_cons. intros [Hne Hrest]%not_elem_of_cons. cbn in *.
  rewrite decide_False by done. by rewrite IH.
Qed.

(** X11: [subscribe(handler)] on the cache calls nobody and puts the
    handler last in the registry: the next [set], [clear] or [delete] of a
    present key calls the earlier handlers in their order, then the new
    one, each once. *)
Theorem cache_subscriber_is_notified_last (w : World) (handler : callback)
    (m : mutation) :
  symbols_fresh w →
  quiet Some (cache_subscribers (cacheit w)) = true →
  let sym := symbols w in
  let subs := cache_subscribers (cacheit w) in
  let w' := exec (CacheIt_subscribe handler) w in
  changes m w' = true →
  result (CacheIt_subscribe handler) w = Normal {| csub_symbol := sym |} ∧
  trace w' = trace w ∧
  cache_subscribers (cacheit w') = subs ++ [(sym, handler)] ∧
  trace (mutate m w')
    = trace w ++ map (λ e, CacheChanged e.1 (cb_id e.2)) subs
              ++ [CacheChanged sym (cb_id handler)].
Proof.
  intros Hfresh Hquiet sym subs w' Hm.
  assert (Hsubs : cache_subscribers (cacheit w') = subs ++ [(sym, handler)]).
  { subst w'. unfold exec, CacheIt_subscribe, Symbol, modify_cacheit. js_unfold. cbn.
    apply Map_set_fresh. intros Hin.
    pose proof (Hfresh None (symbols w) Hin). lia. }
  split_and!; [done|done|done|].
  rewrite mutate_trace, Hm, Hsubs, cache_pass_all_but_last.
  - by rewrite map_app.
  - by rewrite removelast_last.
Qed.

Lemma cache_subscriber_is_notified_last_witness :
  let w' := exec (CacheIt_subscribe (Callback 5 false)) one_subscriber in
  quiet Some (cache_subscribers (cacheit one_subscriber)) = true ∧
  changes CallClear w' = true ∧
  trace (mutate CallClear w') = [CacheChanged 0 1; CacheChanged 1 5].
Proof.
  assert (Hfresh : symbols_fresh one_subscriber).
  { apply (symbols_fresh_perform (Cache_subscribe (Callback 1 false)) initial).
    apply symbols_fresh_initial. }
  pose proof (cache_subscriber_is_notified_last one_subscriber (Callback 5 false)
                CallClear Hfresh eq_refl eq_refl) as (_ & _ & _ & Htrace).
  split; [reflexivity|]. split; [reflexivity | exact Htrace].
Defined.

(** X12: in a world whose registered symbols have all been issued by
    [Symbol()], [subscribe(handlers)] on a slot calls nobody, leaves the
    value as it is and puts the handlers last in the slot's registry.  The
    next [update] calls the earlier [next] callbacks in their order, each
    with the slot itself, up to the first that throws; the new [next] is
    called after them when all of them return, and is not called when one
    of them throws. *)
Theorem slot_subscriber_is_notified_last (w : World) (this : ref)
    (cv : CacheValue) (handlers : CacheValueSubscriptionHandlers) (v : jsval) :
  symbols_fresh w →
  slots w !! this = Some cv →
  let sym := symbols w in
  let w' := exec (CacheValue_subscribe this handlers) w in
  trace w' = trace w ∧
  slots w' !! this = Some {| value := value cv;
                             subscribers := subscribers cv ++ [(sym, handlers)] |} ∧
  trace (exec (CacheValue_update this v) w')
    = trace w ++ pass_events next (λ s c, Next s c this) (subscribers cv)
              ++ (if quiet next (subscribers cv)
                  then call_events (next handlers) (λ c, Next sym c this)
                  else []).
Proof.
  intros Hfresh Hcv sym w'.
  assert (Hw' : w' = (CacheValue_subscribe this handlers w).2) by done.
  rewrite (CacheValue_subscribe_eq _ _ _ _ Hcv) in Hw'. cbn in Hw'.
  assert (Hs : slots w' !! this
               = Some {| value := value cv;
                         subscribers := subscribers cv ++ [(sym, handlers)] |}).
  { rewrite Hw'. cbn. rewrite Map_set_fresh.
    - apply list_lookup_insert_eq. by eapply lookup_lt_Some.
    - intros Hin. assert (symbols w < symbols w); [|lia].
      apply (Hfresh (Some this)). by exists cv. }
  split_and!; [by rewrite Hw'|done|].
  unfold exec. rewrite (CacheValue_update_eq _ _ _ _ Hs). cbn.
  rewrite Hw'. cbn. f_equal.
  destruct (quiet next (subscribers cv)) eqn:Hquiet.
  - rewrite pass_events_app_quiet by done. f_equal. cbn.
    destruct (next handlers) as [cb|]; cbn; [|done]. by destruct (cb_throws cb).
  - rewrite pass_events_app_throw by done. by rewrite app_nil_r.
Qed.

Lemma slot_subscriber_is_notified_last_witness :
  let w' := exec (CacheValue_subscribe 0 completing) subscribed_slot in
  trace (exec (CacheValue_update 0 (Prim (PNum 2))) w') = [Next 0 8 0; Next 1 8 0].
Proof.
  assert (Hfresh : symbols_fresh subscribed_slot).
  { apply (symbols_fresh_run [Cache_set "k" (Prim (PNum 1)) None;
                              Slot_subscribe 0 completing] initial).
    apply symbols_fresh_initial. }
  pose proof (slot_subscriber_is_notified_last subscribed_slot 0
                {| value := {| current := Prim (PNum 1); previous := undefined |};
                   subscribers := [(0, completing)] |}
                completing (Prim (PNum 2)) Hfresh eq_refl)
    as (_ & _ & Htrace).
  exact Htrace.
Defined.

(** X13: a [next] callback that throws does not undo the write that
    notified it.  [update(v)] and [clear()] then end by throwing, but the
    slot already holds the new state, and its subscribers stay
    registered. *)
Theorem slot_handler_exception_leaves_the_write (w : World) (this : ref)
    (cv : CacheValue) (v : jsval) (e : exn) :
  slots w !! this = Some cv →
  pass_outcome next (subscribers cv) = Thrown e →
  let w1 := exec (CacheValue_update this v) w in
  let w2 := exec (CacheValue_clear this) w in
  result (CacheValue_update this v) w = Thrown e ∧
  result (CacheValue_unwrapCurrent this None) w1
    = Normal (isolated (isolated_heap (heap w) (current (value cv))) v) ∧
  result (CacheValue_unwrapPrevious this None) w1
    = Normal (isolated (heap w) (current (value cv))) ∧
  result (CacheValue_clear this) w = Thrown e ∧
  result (CacheValue_unwrapCurrent this None) w2 = Normal undefined ∧
  result (CacheValue_unwrapPrevious this None) w2 = Normal undefined ∧
  (subscribers <$> slots w1 !! this) = Some (subscribers cv) ∧
  (subscribers <$> slots w2 !! this) = Some (subscribers cv).
Proof.
  intros Hcv Hthrow w1 w2.
  pose proof (update_slot_after this v cv w Hcv) as Hs1. fold w1 in Hs1.
  assert (Hs2 : slots w2 !! this
                = Some {| value := {| current := undefined; previous := undefined |};
                          subscribers := subscribers cv |}).
  { subst w2. unfold exec. rewrite (CacheValue_clear_eq _ _ _ Hcv). cbn.
    apply list_lookup_insert_eq. by eapply lookup_lt_Some. }
  rewrite (unwrapCurrent_result _ _ _ Hs1), (unwrapPrevious_result _ _ _ Hs1),
    (unwrapCurrent_result _ _ _ Hs2), (unwrapPrevious_result _ _ _ Hs2), Hs1, Hs2.
  unfold result.
  rewrite (CacheValue_update_eq _ _ _ _ Hcv), (CacheValue_clear_eq _ _ _ Hcv), Hthrow.
  done.
Qed.

Lemma slot_handler_exception_leaves_the_write_witness :
  let w1 := exec (CacheValue_update 0 (Prim (PNum 4))) slot_throwing_first in
  result (CacheValue_update 0 (Prim (PNum 4))) slot_throwing_first
    = Thrown (HandlerError 1) ∧
  result (CacheValue_unwrapCurrent 0 None) w1 = Normal (Prim (PNum 4)).
Proof.
  pose proof (slot_handler_exception_leaves_the_write slot_throwing_first 0
                {| value := {| current := undefined; previous := undefined |};
                   subscribers :=
                     [(0, {| next := Some (Callback 1 true); complete := None |});
                      (1, {| next := Some (Callback 2 false); complete := None |})] |}
                (Prim (PNum 4)) (HandlerError 1) eq_refl eq_refl)
    as (Hthrown & Hcur & _).
  split; [exact Hthrown | exact Hcur].
Defined.

(** ** Isolation after an update *)

Lemma observe_insert_other h l o v :
  v ≠ Ref l → observe (<[l := o]> h) v = observe h v.
Proof.
  destruct v as [p|a]; cbn; [done|]. intros Hne. unfold deref.
  rewrite list_lookup_insert_ne; [done|]. by intros ->.
Qed.

Lemma isolated_is_new h v l :
  is_function h v = false → l < length h → isolated h v ≠ Ref l.
Proof.
  destruct v as [p|a]; [done|]. rewrite is_function_Ref. cbn. intros ->.
  intros Hl [= ?]. lia.
Qed.

(** X14: when neither the value passed to [update] nor the value that was
    current is a function, the slot shares nothing after the call with the
    objects that existed before it: neither the object passed in, nor an
    object a caller obtained from the slot earlier.  Assigning to any of
    them changes neither what [unwrapCurrent()] nor what
    [unwrapPrevious()] reads.  (A function is not copied: the slot keeps
    the caller's reference to it.) *)
Theorem update_detaches_from_existing_objects (w : World) (this : ref)
    (cv : CacheValue) (v : jsval) (l : loc) (o : object) :
  slots w !! this = Some cv →
  is_function (heap w) v = false →
  is_function (heap w) (current (value cv)) = false →
  l < length (heap w) →
  let w1 := exec (CacheValue_update this v) w in
  let w2 := exec (write_object l o) w1 in
  ∃ c p,
    result (CacheValue_unwrapCurrent this None) w1 = Normal c ∧
    result (CacheValue_unwrapPrevious this None) w1 = Normal p ∧
    result (CacheValue_unwrapCurrent this None) w2 = Normal c ∧
    result (CacheValue_unwrapPrevious this None) w2 = Normal p ∧
    observe (heap w2) c = observe (heap w1) c ∧
    observe (heap w2) p = observe (heap w1) p.
Proof.
  intros Hcv Hv Hcur Hl w1 w2.
  pose proof (update_slot_after this v cv w Hcv) as Hs1. fold w1 in Hs1.
  assert (Hs2 : slots w2 !! this = slots w1 !! this) by done.
  destruct (isolated_heap_grows (heap w) (current (value cv))) as [ext Hext].
  eexists _, _. split_and!.
  - by rewrite (unwrapCurrent_result _ _ _ Hs1).
  - by rewrite (unwrapPrevious_result _ _ _ Hs1).
  - rewrite Hs1 in Hs2. by rewrite (unwrapCurrent_result _ _ _ Hs2).
  - rewrite Hs1 in Hs2. by rewrite (unwrapPrevious_result _ _ _ Hs2).
  - cbn. apply observe_insert_other, isolated_is_new.
    + by apply is_function_isolated_heap.
    + rewrite Hext, length_app. lia.
  - cbn. by apply observe_insert_other, isolated_is_new.
Qed.

Lemma update_detaches_from_existing_objects_witness :
  let w1 := exec (CacheValue_update 0 (Prim (PNum 3))) record_stored in
  let w2 := exec (write_object 1 changed_record) w1 in
  heap record_stored = [a_record; a_record] ∧
  ∃ c p,
    result (CacheValue_unwrapCurrent 0 None) w1 = Normal c ∧
    result (CacheValue_unwrapPrevious 0 None) w1 = Normal p ∧
    result (CacheValue_unwrapCurrent 0 None) w2 = Normal c ∧
    result (CacheValue_unwrapPrevious 0 None) w2 = Normal p ∧
    observe (heap w2) c = observe (heap w1) c ∧
    observe (heap w2) p = observe (heap w1) p.
Proof.
  split; [reflexivity|].
  refine (update_detaches_from_existing_objects record_stored 0
            {| value := {| current := Ref 1; previous := undefined |};
               subscribers := [] |}
            (Prim (PNum 3)) 1 changed_record eq_refl eq_refl eq_refl _).
  vm_compute. lia.
Defined.

(** X15: after [update(v)] with an object [v] that is not a function,
    current and previous are never the same object.  Assigning to the
    object [unwrapCurrent()] returns therefore leaves [unwrapPrevious()]
    reading what was current before the update.  (With a function both can
    be the same object, since a function is kept by reference.) *)
Theorem current_and_previous_do_not_share (w : World) (this : ref)
    (cv : CacheValue) (v : jsval) (c : loc) (o : object) :
  slots w !! this = Some cv →
  is_function (heap w) v = false →
  let w1 := exec (CacheValue_update this v) w in
  let w2 := exec (write_object c o) w1 in
  result (CacheValue_unwrapCurrent this None) w1 = Normal (Ref c) →
  ∃ p, p ≠ Ref c ∧
       result (CacheValue_unwrapPrevious this None) w1 = Normal p ∧
       result (CacheValue_unwrapPrevious this None) w2 = Normal p ∧
       observe (heap w2) p = observe (heap w) (current (value cv)).
Proof.
  intros Hcv Hv w1 w2 Hc.
  pose proof (update_slot_after this v cv w Hcv) as Hs1. fold w1 in Hs1.
  assert (Hs2 : slots w2 !! this = slots w1 !! this) by done.
  rewrite (unwrapCurrent_result _ _ _ Hs1) in Hc. cbn in Hc. injection Hc as Hc.
  set (cur := current (value cv)) in *.
  set (h1 := isolated_heap (heap w) cur) in *.
  assert (Hv1 : is_function h1 v = false) by by apply is_function_isolated_heap.
  assert (Hc' : c = length h1).
  { destruct v as [p|a]; [done|]. rewrite is_function_Ref in Hv1.
    cbn in Hc. rewrite Hv1 in Hc. by injection Hc. }
  assert (Hne : isolated (heap w) cur ≠ Ref c).
  { rewrite Hc'. pose proof (isolated_allocated (heap w) cur) as Ha.
    fold h1 in Ha. destruct (isolated (heap w) cur) as [p|lp]; [done|].
    cbn in Ha. intros [= ?]. lia. }
  exists (isolated (heap w) cur). split_and!.
  - done.
  - by rewrite (unwrapPrevious_result _ _ _ Hs1).
  - rewrite Hs1 in Hs2. by rewrite (unwrapPrevious_result _ _ _ Hs2).
  - pose proof (update_heap_after this v cv w Hcv) as Hh. fold w1 cur h1 in Hh.
    cbn. rewrite observe_insert_other, Hh by done.
    destruct (isolated_heap_grows h1 v) as [ext ->].
    rewrite observe_grow by apply isolated_allocated.
    apply observe_isolated.
Qed.

Lemma current_and_previous_do_not_share_witness :
  let w := exec (CacheValue_update 0 (Ref 0)) record_stored in
  let w2 := exec (write_object 3 changed_record) w in
  result (CacheValue_unwrapCurrent 0 None) w = Normal (Ref 3) ∧
  ∃ p, p ≠ Ref 3 ∧
       result (CacheValue_unwrapPrevious 0 None) w = Normal p ∧
       result (CacheValue_unwrapPrevious 0 None) w2 = Normal p ∧
       observe (heap w2) p = observe (heap record_stored) (Ref 1).
Proof.
  split; [reflexivity|].
  exact (current_and_previous_do_not_share record_stored 0
           {| value := {| current := Ref 1; previous := undefined |};
              subscribers := [] |}
           (Ref 0) 3 changed_record eq_refl eq_refl eq_refl).
Defined.

Lemma isolated_function h f :
  callable (deref h f) = true →
  isolated h (Ref f) = Ref f ∧ isolated_heap h (Ref f) = h.
Proof. intros Hf. cbn. by rewrite Hf. Qed.

Lemma callable_isolated_heap h u f :
  callable (deref h f) = true → callable (deref (isolated_heap h u) f) = true.
Proof.
  intros Hf. destruct (isolated_heap_grows h u) as [ext ->].
  rewrite deref_grow; [done|]. by apply callable_allocated.
Qed.

(** X23: a function is stored by reference.  [update(f)] makes [f] itself
    the current value, and a second [update(f)] leaves current and previous
    the same object [f]; what the caller then assigns to a property of [f]
    is what both [unwrapCurrent()] and [unwrapPrevious()] read. *)
Theorem update_keeps_a_function_by_reference (w : World) (this : ref)
    (cv : CacheValue) (f : loc) (o : object) :
  slots w !! this = Some cv →
  is_function (heap w) (Ref f) = true →
  let w1 := exec (CacheValue_update this (Ref f)) w in
  let w2 := exec (CacheValue_update this (Ref f)) w1 in
  let w3 := exec (write_object f o) w2 in
  result (CacheValue_unwrapCurrent this None) w1 = Normal (Ref f) ∧
  result (CacheValue_unwrapCurrent this None) w2 = Normal (Ref f) ∧
  result (CacheValue_unwrapPrevious this None) w2 = Normal (Ref f) ∧
  result (CacheValue_unwrapCurrent this None) w3 = Normal (Ref f) ∧
  result (CacheValue_unwrapPrevious this None) w3 = Normal (Ref f) ∧
  observe (heap w3) (Ref f) = Node o.
Proof.
  intros Hcv Hf w1 w2 w3. rewrite is_function_Ref in Hf.
  pose proof (update_slot_after this (Ref f) cv w Hcv) as Hs1. fold w1 in Hs1.
  pose proof (update_heap_after this (Ref f) cv w Hcv) as Hh1. fold w1 in Hh1.
  set (h1 := isolated_heap (heap w) (current (value cv))) in *.
  assert (Hf1 : callable (deref h1 f) = true) by by apply callable_isolated_heap.
  destruct (isolated_function h1 f Hf1) as [Hi1 Hih1].
  rewrite Hi1 in Hs1. rewrite Hih1 in Hh1.
  pose proof (update_slot_after this (Ref f) _ w1 Hs1) as Hs2. fold w2 in Hs2.
  pose proof (update_heap_after this (Ref f) _ w1 Hs1) as Hh2. fold w2 in Hh2.
  cbn [value current previous] in Hs2, Hh2. rewrite Hh1 in Hs2, Hh2.
  rewrite Hih1 in Hs2, Hh2. rewrite Hi1 in Hs2. rewrite Hih1 in Hh2.
  assert (Hs3 : slots w3 !! this = slots w2 !! this) by done.
  rewrite Hs2 in Hs3.
  split_and!.
  - by rewrite (unwrapCurrent_result _ _ _ Hs1).
  - by rewrite (unwrapCurrent_result _ _ _ Hs2).
  - by rewrite (unwrapPrevious_result _ _ _ Hs2).
  - by rewrite (unwrapCurrent_result _ _ _ Hs3).
  - by rewrite (unwrapPrevious_result _ _ _ Hs3).
  - cbn. rewrite Hh2. unfold deref. rewrite list_lookup_insert_eq; [done|].
    by apply callable_allocated.
Qed.

Lemma update_keeps_a_function_by_reference_witness :
  let w1 := exec (CacheValue_update 0 (Ref 0)) holding_a_function in
  let w2 := exec (CacheValue_update 0 (Ref 0)) w1 in
  let w3 := exec (write_object 0 changed_function) w2 in
  typeof (heap holding_a_function) (Ref 0) = "function" ∧
  result (CacheValue_unwrapCurrent 0 None) w2 = Normal (Ref 0) ∧
  result (CacheValue_unwrapPrevious 0 None) w2 = Normal (Ref 0) ∧
  observe (heap w3) (Ref 0) = Node changed_function.
Proof.
  pose proof (update_keeps_a_function_by_reference holding_a_function 0
                empty_slot 0 changed_function eq_refl eq_refl)
    as (_ & Hc & Hp & _ & _ & Ho).
  split; [reflexivity|]. split; [exact Hc|]. split; [exact Hp | exact Ho].
Defined.

(** ** Invariants of every world a program can reach *)

Lemma entries_live_perform c w : entries_live w → entries_live (perform c w).
Proof.
  intros Hlive key s Hkey.
  destruct (perform_footprint c w) as (_ & Hlen & _).
  destruct (cache_call c) eqn:Hc.
  - destruct c; try discriminate; cbn [perform] in *; unfold exec in *.
    + rewrite CacheIt_set_eq in *. cbn in *. rewrite length_app. cbn.
      apply lookup_insert_Some in Hkey as [[_ <-]|[_ Hkey]]; [lia|].
      specialize (Hlive _ _ Hkey). lia.
    + rewrite CacheIt_delete_eq in *. case_bool_decide; cbn in *.
      * apply lookup_delete_Some in Hkey as [_ Hkey]. by eapply Hlive.
      * by eapply Hlive.
    + rewrite CacheIt_clear_eq in *. cbn in *. by rewrite lookup_empty in Hkey.
  - rewrite perform_keeps_the_map in Hkey by done.
    specialize (Hlive _ _ Hkey). lia.
Qed.

Lemma entries_live_run cs w : entries_live w → entries_live (run cs w).
Proof.
  revert w. induction cs as [|c rest IH]; intros w Hlive; cbn; [done|].
  by apply IH, entries_live_perform.
Qed.

(** X16: in every world a program reaches from the empty one, by any
    calls, the slot [get] returns exists: its methods do not throw for want
    of an instance. *)
Theorem get_returns_a_live_slot (cs : list call) (key : string) (s : ref) :
  let w := run cs initial in
  result (CacheIt_get key) w = Normal (Some s) →
  ∃ cv, slots w !! s = Some cv ∧
        result (CacheValue_unwrapCurrent s None) w = Normal (current (value cv)) ∧
        result (CacheValue_unwrapPrevious s None) w = Normal (previous (value cv)).
Proof.
  intros w. unfold result at 1. rewrite CacheIt_get_eq. cbn. intros [= Hkey].
  assert (Hlive : entries_live w).
  { apply entries_live_run. intros k s' Hk.
    change (cache (cacheit initial)) with (∅ : gmap string ref) in Hk.
    by rewrite lookup_empty in Hk. }
  destruct (lookup_lt_is_Some_2 (slots w) s (Hlive _ _ Hkey)) as [cv Hcv].
  exists cv. split_and!; [done| |].
  - by apply unwrapCurrent_result.
  - by apply unwrapPrevious_result.
Qed.

Lemma get_returns_a_live_slot_witness :
  let w := run [Cache_set "a" (Prim (PNum 1)) None; Cache_set "a" (Prim (PNum 2)) None;
                Slot_update 1 (Prim (PNum 3))] initial in
  result (CacheIt_get "a") w = Normal (Some 1) ∧
  ∃ cv, slots w !! 1 = Some cv ∧
        result (CacheValue_unwrapCurrent 1 None) w = Normal (current (value cv)) ∧
        result (CacheValue_unwrapPrevious 1 None) w = Normal (previous (value cv)).
Proof.
  split; [reflexivity|].
  exact (get_returns_a_live_slot
           [Cache_set "a" (Prim (PNum 1)) None; Cache_set "a" (Prim (PNum 2)) None;
            Slot_update 1 (Prim (PNum 3))] "a" 1 eq_refl).
Defined.

Lemma NoDup_Map_set {H} (k : symbol) (h : H) (m : list (symbol * H)) :
  NoDup m.*1 → NoDup (Map_set k h m).*1.
Proof.
  induction m as [|[k' h'] rest IH]; cbn.
  - intros _. apply NoDup_singleton.
  - intros [Hk' Hrest]%NoDup_cons. destruct (decide (k' = k)) as [->|Hne]; cbn.
    + by apply NoDup_cons.
    + apply NoDup_cons. split; [|by apply IH].
      intros [?|?]%elem_of_Map_set; [done | by subst].
Qed.

Lemma NoDup_Map_delete {H} (k : symbol) (m : list (symbol * H)) :
  NoDup m.*1 → NoDup (Map_delete k m).*1.
Proof.
  unfold Map_delete. induction m as [|[k' h'] rest IH]; [done|].
  rewrite fmap_cons. intros [Hk' Hrest]%NoDup_cons.
  destruct (decide (k' = k)) as [->|Hne].
  - rewrite filter_cons_False by (cbn; by intros []). by apply IH.
  - rewrite filter_cons_True by done. rewrite fmap_cons. apply NoDup_cons.
    split; [|by apply IH].
    intros [? _]%(elem_of_Map_delete k rest). done.
Qed.

(** The keys of the registry of slot [s]. *)
Lemma slot_keys_insert (ss : list CacheValue) this cv' s :
  this < length ss →
  default [] ((λ cv, (subscribers cv).*1) <$> <[this := cv']> ss !! s)
  = if decide (s = this) then (subscribers cv').*1
    else default [] ((λ cv, (subscribers cv).*1) <$> ss !! s).
Proof.
  intros Hlt. destruct (decide (s = this)) as [->|Hne].
  - by rewrite list_lookup_insert_eq.
  - by rewrite list_lookup_insert_ne.
Qed.

Lemma registries_are_maps_intro w w' :
  registries_are_maps w →
  NoDup (cache_subscribers (cacheit w')).*1 →
  (slots w' = slots w ∨
   (∃ cv', slots w' = slots w ++ [cv'] ∧ subscribers cv' = []) ∨
   (∃ this cv', this < length (slots w) ∧ slots w' = <[this := cv']> (slots w) ∧
                NoDup (subscribers cv').*1)) →
  registries_are_maps w'.
Proof.
  intros Hmaps Hcache Hslots [s|]; [|done].
  destruct Hslots as [-> | [(cv' & -> & Hempty) | (this & cv' & Hlt & -> & Hnd)]].
  - apply (Hmaps (Some s)).
  - destruct (decide (s < length (slots w))) as [Hlt|Hge].
    + rewrite lookup_app_l by done. apply (Hmaps (Some s)).
    + destruct (decide (s = length (slots w))) as [->|Hne].
      * rewrite list_lookup_middle by done. cbn. rewrite Hempty. apply NoDup_nil_2.
      * rewrite lookup_ge_None_2; [apply NoDup_nil_2|].
        rewrite length_app. cbn. lia.
  - rewrite slot_keys_insert by done. case_decide; [done|]. apply (Hmaps (Some s)).
Qed.

Lemma registries_are_maps_perform c w :
  registries_are_maps w → registries_are_maps (perform c w).
Proof.
  intros Hmaps.
  assert (Hslot : ∀ this cv, slots w !! this = Some cv → NoDup (subscribers cv).*1).
  { intros this cv Hcv. specialize (Hmaps (Some this)). cbn in Hmaps.
    by rewrite Hcv in Hmaps. }
  pose proof (Hmaps None) as Hcache. cbn in Hcache.
  call_cases c w; try done;
    apply (registries_are_maps_intro w); cbn; try done;
    try (by left);
    try (right; left; by eexists);
    try (by apply NoDup_Map_set);
    try (by apply NoDup_Map_delete);
    try apply NoDup_nil_2;
    try (right; right; eexists _, _; split; [by eapply lookup_lt_Some|];
         split; [done|]; cbn;
         first [ apply NoDup_nil_2 | by apply NoDup_Map_set, (Hslot this)
               | by eapply Hslot ]).
  (* the closure of a slot subscription *)
  destruct (slots w !! sub_this sub) as [cv|] eqn:Hcv.
  - right. right. exists (sub_this sub). eexists. split; [by eapply lookup_lt_Some|].
    split; [by apply list_alter_lookup|]. cbn. by apply NoDup_Map_delete, (Hslot _ _ Hcv).
  - left. by apply list_alter_missing.
Qed.

Lemma registries_are_maps_run cs w :
  registries_are_maps w → registries_are_maps (run cs w).
Proof.
  revert w. induction cs as [|c rest IH]; intros w Hmaps; cbn; [done|].
  by apply IH, registries_are_maps_perform.
Qed.

Lemma registrations_once {H} (sym : symbol) (entries : list (symbol * H)) :
  NoDup entries.*1 → sym ∈ entries.*1 → registrations sym entries = 1.
Proof.
  unfold registrations. induction entries as [|[k h] rest IH]; cbn.
  - by intros _ ?%elem_of_nil.
  - intros [Hk Hrest]%NoDup_cons [->|Hin]%elem_of_cons.
    + rewrite bool_decide_true by done. cbn. f_equal.
      clear IH. induction rest as [|[k' h'] rest IH]; cbn; [done|].
      apply not_elem_of_cons in Hk as [Hne Hk]. apply NoDup_cons in Hrest as [_ Hrest].
      rewrite bool_decide_false by done. by apply IH.
    + rewrite bool_decide_false by (intros ->; done). by apply IH.
Qed.

(** X17: in every world a program reaches from the empty one, a registry
    holds a symbol at most once, so that a subscribed cache handler is
    called exactly once by a [set], a [clear] or a [delete] of a present
    key (the handlers before the last one returning). *)
Theorem subscribed_handler_is_called_once (cs : list call) (m : mutation)
    (sym : symbol) :
  let w := run cs initial in
  sym ∈ (cache_subscribers (cacheit w)).*1 →
  quiet Some (removelast (cache_subscribers (cacheit w))) = true →
  changes m w = true →
  registries_are_maps w ∧
  notifications sym (trace (mutate m w)) = S (notifications sym (trace w)).
Proof.
  intros w Hin Hquiet Hm.
  assert (Hmaps : registries_are_maps w).
  { apply registries_are_maps_run. intros [s|]; cbn; apply NoDup_nil_2. }
  split; [done|].
  rewrite mutate_trace, Hm, notifications_app, cache_pass_all_but_last,
    notifications_pass by done.
  rewrite registrations_once; [lia|apply (Hmaps None)|done].
Qed.

Lemma subscribed_handler_is_called_once_witness :
  let w := run [Cache_subscribe (Callback 1 false); Cache_subscribe (Callback 1 false);
                Cache_set "a" (Prim (PNum 1)) None] initial in
  notifications 1 (trace (mutate CallClear w)) = S (notifications 1 (trace w)).
Proof.
  refine (proj2 (subscribed_handler_is_called_once
                   [Cache_subscribe (Callback 1 false); Cache_subscribe (Callback 1 false);
                    Cache_set "a" (Prim (PNum 1)) None]
                   CallClear 1 _ eq_refl eq_refl)).
  vm_compute. right. left.
Defined.

(** X18: in every world a program reaches from the empty one, every symbol
    in a registry has been issued by [Symbol()], so the symbol the next
    [subscribe] will get is in no registry yet. *)
Theorem reachable_worlds_have_fresh_symbols (cs : list call) (place : option ref) :
  let w := run cs initial in
  symbols_fresh w ∧ ¬ registered_at w place (symbols w).
Proof.
  intros w.
  assert (Hfresh : symbols_fresh w) by apply symbols_fresh_run, symbols_fresh_initial.
  split; [done|]. intros Hreg. specialize (Hfresh place _ Hreg). lia.
Qed.

(** ** Presence, as the handler form sees it *)

Lemma truthy_spec v : truthy v = false ↔ v ∈ falsy_values.
Proof.
  unfold falsy_values. rewrite !elem_of_cons, elem_of_nil. split.
  - destruct v as [[| |[]|n| |n|s|s]|l]; cbn; try done; auto 8.
    + intros Hn%negb_false_iff%Z.eqb_eq. subst. auto 8.
    + intros Hn%negb_false_iff%Z.eqb_eq. subst. auto 8.
    + intros Hs%negb_false_iff%String.eqb_eq. subst. auto 8.
  - intros [->|[->|[->|[->|[->|[->|[->|[]]]]]]]]; done.
Qed.

Lemma truthy_isolated h v : truthy (isolated h v) = truthy v.
Proof. destruct v as [p|l]; cbn; [done|]. by destruct (callable (deref h l)). Qed.

(** X19: after [update(v)], the handler form of [unwrapCurrent] calls
    [onAbsent] exactly when [v] is [undefined], [null], [false], the number
    [0], [NaN], the bigint [0n] or the empty string, and otherwise
    [onPresent], with the very value the plain [unwrapCurrent()] returns;
    every object, function and symbol counts as present.  The call makes
    nothing else happen, and if the callback throws the exception reaches
    the caller. *)
Theorem presence_is_truthiness (w : World) (this : ref) (cv : CacheValue)
    (v : jsval) (h : UnwrapHandlers) :
  slots w !! this = Some cv →
  let w1 := exec (CacheValue_update this v) w in
  let called := if truthy v then onPresent h else onAbsent h in
  (truthy v = false ↔ v ∈ falsy_values) ∧
  ∃ c, result (CacheValue_unwrapCurrent this None) w1 = Normal c ∧
       CacheValue_unwrapCurrent this (Some h) w1
       = (returning (call_outcome called) undefined,
          set_trace (trace w1 ++ call_events called
                                   (λ cb, if truthy v then Present cb c else Absent cb))
                    w1).
Proof.
  intros Hcv w1 called. split; [apply truthy_spec|].
  pose proof (update_slot_after this v cv w Hcv) as Hs1. fold w1 in Hs1.
  eexists. split; [by apply (unwrapCurrent_result _ _ _ Hs1)|].
  rewrite (CacheValue_unwrapCurrent_eq _ _ _ _ Hs1). cbn.
  unfold unwrap_call, unwrap_event. rewrite truthy_isolated. subst called.
  by destruct (truthy v).
Qed.

Lemma presence_is_truthiness_witness :
  let w1 := exec (CacheValue_update 0 (Ref 0)) record_stored in
  ∃ c, result (CacheValue_unwrapCurrent 0 None) w1 = Normal c ∧
       CacheValue_unwrapCurrent 0 (Some both_handlers) w1
       = (Normal undefined, set_trace (trace w1 ++ [Present 1 c]) w1).
Proof.
  exact (proj2 (presence_is_truthiness record_stored 0
                  {| value := {| current := Ref 1; previous := undefined |};
                     subscribers := [] |}
                  (Ref 0) both_handlers eq_refl)).
Defined.

(** ** Keys made by [CacheItUtils] *)

Lemma string_app_cons a s t : String a s +:+ t = String a (s +:+ t).
Proof. done. Qed.

Lemma string_app_assoc s t u : (s +:+ t) +:+ u = s +:+ (t +:+ u).
Proof.
  induction s as [|a s IH]; [done|]. by rewrite !string_app_cons, IH.
Qed.

Lemma string_app_nil_r s : s +:+ "" = s.
Proof. induction s as [|a s IH]; [done|]. by rewrite string_app_cons, IH. Qed.

Lemma string_length_app s t :
  String.length (s +:+ t) = String.length s + String.length t.
Proof.
  induction s as [|a s IH]; [done|]. rewrite string_app_cons. cbn. by rewrite IH.
Qed.

(** Two strings that end in suffixes of one length end in the same
    suffix. *)
Lemma string_suffix_inj s1 s2 u1 u2 :
  String.length u1 = String.length u2 →
  s1 +:+ u1 = s2 +:+ u2 → s1 = s2 ∧ u1 = u2.
Proof.
  intros Hlen. revert s2. induction s1 as [|a s1 IH]; intros [|b s2] Heq.
  - done.
  - exfalso. apply (f_equal String.length) in Heq.
    rewrite !string_length_app in Heq. cbn in Heq. lia.
  - exfalso. apply (f_equal String.length) in Heq.
    rewrite !string_length_app in Heq. cbn in Heq. lia.
  - rewrite !string_app_cons in Heq. injection Heq as -> Heq.
    destruct (IH _ Heq) as [-> ->]. done.
Qed.

(** A key is a front part, made of the base key and the parts, followed by
    the identifier. *)
Lemma generateKeyWithBase_split baseKey additional :
  ∃ front, ∀ uuid,
    CacheItUtils_generateKeyWithBase baseKey additional uuid = front +:+ uuid.
Proof.
  unfold CacheItUtils_generateKeyWithBase.
  set (b := match baseKey with Some b => b +:+ "_" | None => "" end).
  set (a := if 0 <? length additional
            then String.concat "-" additional +:+ "_" else "").
  exists ("$CACHE-IT_" +:+ (b +:+ a)). intros uuid.
  rewrite (string_app_assoc "$CACHE-IT_" (b +:+ a) uuid).
  by rewrite (string_app_assoc b a uuid).
Qed.

(** X20: keys are as unique as the identifiers.  Two keys made with
    identifiers of one length (a v4 UUID has 36 characters) are equal only
    if the identifiers are, whatever the base keys and the parts. *)
Theorem keys_differ_when_identifiers_do (base1 base2 : option string)
    (parts1 parts2 : list string) (uuid1 uuid2 : string) :
  String.length uuid1 = String.length uuid2 →
  CacheItUtils_generateKeyWithBase base1 parts1 uuid1
    = CacheItUtils_generateKeyWithBase base2 parts2 uuid2 →
  uuid1 = uuid2.
Proof.
  intros Hlen Heq.
  destruct (generateKeyWithBase_split base1 parts1) as [f1 H1].
  destruct (generateKeyWithBase_split base2 parts2) as [f2 H2].
  rewrite H1, H2 in Heq. by destruct (string_suffix_inj _ _ _ _ Hlen Heq).
Qed.

Lemma keys_differ_when_identifiers_do_witness :
  let key := CacheItUtils_generateKey ["my_parts"]
               "2a4f54b2-700a-41b3-8008-ac641a550ee5" in
  key = "$CACHE-IT_my_parts_2a4f54b2-700a-41b3-8008-ac641a550ee5" ∧
  "2a4f54b2-700a-41b3-8008-ac641a550ee5" = "2a4f54b2-700a-41b3-8008-ac641a550ee5".
Proof.
  split; [reflexivity|].
  exact (keys_differ_when_identifiers_do None (Some "my") ["my_parts"] ["parts"]
           "2a4f54b2-700a-41b3-8008-ac641a550ee5"
           "2a4f54b2-700a-41b3-8008-ac641a550ee5" eq_refl eq_refl).
Defined.

(** X21: [addBaseKey] throws for the empty base key and for no other; the
    generator it returns otherwise makes the keys the static
    [generateKey] makes when the base key is put in front of the parts: as
    the only part, or joined to the first part by an underscore. *)
Theorem addBaseKey_puts_the_base_in_front (baseKey part : string)
    (parts : list string) (uuid : string) :
  CacheItUtils_addBaseKey "" = inl (MkError "Base key cannot be empty") ∧
  match CacheItUtils_addBaseKey baseKey with
  | inl _ => baseKey = ""
  | inr g =>
      baseKey ≠ "" ∧
      generateKey g [] uuid = CacheItUtils_generateKey [baseKey] uuid ∧
      generateKey g (part :: parts) uuid
        = CacheItUtils_generateKey ((baseKey +:+ "_" +:+ part) :: parts) uuid
  end.
Proof.
  split; [done|]. unfold CacheItUtils_addBaseKey.
  destruct (String.eqb_spec baseKey "") as [->|Hne]; [done|].
  split; [done|]. cbn [generateKey].
  unfold CacheItUtils_generateKey, CacheItUtils_generateKeyWithBase. cbn [length Nat.ltb Nat.leb].
  split.
  - reflexivity.
  - destruct parts as [|p ps]; cbn [String.concat];
      repeat rewrite string_app_assoc; reflexivity.
Qed.

(** X22: a key does not tell the parts it was made from: two parts give
    the key of the one part that joins them by a hyphen. *)
Theorem joined_parts_give_the_same_key (baseKey : option string)
    (a b : string) (parts : list string) (uuid : string) :
  CacheItUtils_generateKeyWithBase baseKey (a :: b :: parts) uuid
  = CacheItUtils_generateKeyWithBase baseKey ((a +:+ "-" +:+ b) :: parts) uuid.
Proof.
  unfold CacheItUtils_generateKeyWithBase. cbn [length Nat.ltb Nat.leb].
  destruct parts as [|p ps]; cbn [String.concat];
    repeat rewrite string_app_assoc; reflexivity.
Qed.
